(** * pfp-BACKEND: key rotation, retrying image generation, watermark
      geometry and the gallery listing of [src/index.js]

    The server keeps three module-level variables for the Gemini key in use
    ([currentApiKeyIndex], [geminiApiKey], [currentApiKeyName]) next to the
    constant array [geminiApiKeys], which a loop fills from the environment
    at start-up.  [getNextApiKey] rotates them,
    [generateImage] calls the image endpoint and retries by calling itself,
    [applyWatermark] sizes and places a logo with sharp, the
    [/api/generate-image] route generates, watermarks, uploads and stores one
    image, and the [/api/gallery] route pages through the stored gallery
    items.

    The embedding is shallow: the module-level variables are a record that
    every function takes and returns, a thrown exception is a constructor of
    the result, and the outside world (the HTTP endpoint, sharp, the file
    system, the document store) is a parameter or an explicit argument.  One
    call is followed from its start to its end; calls of other requests that
    run in between are not part of the model. *)

From Stdlib Require Import ZArith String List Lia.
From Stdlib Require Import Floats.
From stdpp Require Import base option list strings pretty sorting gmap.
From Equations Require Import Equations.

Local Open Scope string_scope.
Local Open Scope Z_scope.

(** * Part I: the program *)

(** ** JavaScript values *)

(** A JavaScript number that holds an integer, or [NaN].  The key index, the
    retry counters and the pixel sizes are integers far below [2^53], where
    binary64 addition, subtraction, comparison and remainder are exact. *)
Inductive jsnum :=
| Num (z : Z)
| NaN.

Global Instance jsnum_eq_dec : EqDecision jsnum.
Proof. solve_decision. Defined.

(** [a + 1] *)
Definition js_succ (a : jsnum) : jsnum :=
  match a with
  | Num z => Num (z + 1)
  | NaN => NaN
  end.

(** [a % n] for an array length [n]: the remainder has the sign of the
    dividend, and a zero divisor gives [NaN]. *)
Definition js_rem (a : jsnum) (n : Z) : jsnum :=
  match a with
  | Num z => if n =? 0 then NaN else Num (Z.rem z n)
  | NaN => NaN
  end.

(** [array[i]]: [undefined] unless [i] is an index of the array. *)
Definition js_get {A} (l : list A) (i : jsnum) : option A :=
  match i with
  | Num z => if z <? 0 then None else l !! Z.to_nat z
  | NaN => None
  end.

(** [`${a}`] *)
Definition js_show (a : jsnum) : string :=
  match a with
  | Num z => pretty z
  | NaN => "NaN"
  end.

(** Truthiness of a value that is [undefined] or a string. *)
Definition truthy (v : option string) : bool :=
  match v with
  | Some s => negb (String.eqb s "")
  | None => false
  end.

(** [x || d] for an argument that is omitted ([undefined]) or a number:
    [undefined] and [0] are falsy. *)
Definition js_or (x : option Z) (d : Z) : Z :=
  match x with
  | Some z => if z =? 0 then d else z
  | None => d
  end.

(** ** Exceptions, responses and the trace of a call *)

Inductive error :=
| Error (message : string)
| AxiosError (status : option Z) (message : string).

Inductive outcome (A : Type) :=
| Returned (a : A)
| Thrown (e : error).
Arguments Returned {A} a.
Arguments Thrown {A} e.

(** What [axios.post] settles to: a 2xx response, of which the code reads
    [data?.predictions?.[0]?.bytesBase64Encoded], or a rejection, of which it
    reads [error.response && error.response.status] and [error.message]. *)
Inductive axios_result :=
| Response (bytesBase64Encoded : option string)
| Rejected (status : option Z) (message : string).

(** [error.response && error.response.status === code] *)
Definition has_status (status : option Z) (code : Z) : bool :=
  match status with
  | Some c => c =? code
  | None => false
  end.

(** What a call did, in order: the requests sent, the calls of
    [getNextApiKey] and the [setTimeout] waits.  The trace is kept beside the
    program's own variables so that attempts and rotations can be counted. *)
Inductive event :=
| Posted (key : option string) (prompt : string)
| Rotated
| Slept (ms : Z).

Global Instance event_eq_dec : EqDecision event.
Proof. solve_decision. Defined.

(** The module-level [let] variables of index.js, and the trace. *)
Record state := State {
  currentApiKeyIndex : jsnum;
  geminiApiKey : option string;
  currentApiKeyName : string;
  trace : list event
}.

Definition record (e : event) (s : state) : state :=
  State (currentApiKeyIndex s) (geminiApiKey s) (currentApiKeyName s)
        (trace s ++ [e]).

(** [await new Promise(resolve => setTimeout(resolve, ms))] *)
Definition sleep (ms : Z) (s : state) : state := record (Slept ms) s.

Definition is_post (e : event) : bool :=
  match e with
  | Posted _ _ => true
  | _ => false
  end.

(** The number of requests sent, and of [getNextApiKey] calls, in a trace. *)
Definition posts (t : list event) : nat :=
  length (filter (λ e, is_post e = true) t).

Definition rotations (t : list event) : nat :=
  length (filter (λ e, e = Rotated) t).

(** The three errors [generateImage] makes itself. *)
Definition NoApiKey : error := Error "No API key available.".
Definition MaxRetries : error :=
  Error "Max retries reached. Unable to generate image.".
Definition NoImage : error := Error "No image returned from Gemini.".

(** ** The key pool and generateImage: index.js, lines 78-155 *)

Section Server.

(** [const geminiApiKeys]: filled once at start-up from the environment
    variables [GEMINI_API_KEY_1], [GEMINI_API_KEY_2], ... up to the first one
    that is unset or empty. *)
Variable geminiApiKeys : list string.

(** The image endpoint: what the [n]-th request (counted over the whole
    trace) settles to, given the key and the prompt it carries. *)
Variable axios_post : nat → option string → string → axios_result.

(** [Buffer.from(base64Data, "base64")] *)
Variable Buffer : Type.
Variable Buffer_from : string → Buffer.

(** Lines 86-88. *)
Definition initial_state : state :=
  State (Num 0) (js_get geminiApiKeys (Num 0))
        ("GEMINI_API_KEY_" +:+ js_show (js_succ (Num 0))) [].

(** Lines 91-96.  The key the function returns is the new [geminiApiKey]. *)
Definition getNextApiKey (s : state) : state :=
  let i := js_rem (js_succ (currentApiKeyIndex s))
                  (Z.of_nat (length geminiApiKeys)) in
  State i (js_get geminiApiKeys i)
        ("GEMINI_API_KEY_" +:+ js_show (js_succ i))
        (trace s ++ [Rotated]).

(** Lines 100-101: [retries || 0] and
    [maxRetries || geminiApiKeys.length * 2]. *)
Definition attempts_done (retries : option Z) : Z := js_or retries 0.
Definition budget (maxRetries : option Z) : Z :=
  js_or maxRetries (Z.of_nat (length geminiApiKeys) * 2).

(** The state in which the request of this attempt has gone out, and what
    that request settles to. *)
Definition posted (prompt : string) (s : state) : state :=
  record (Posted (geminiApiKey s) prompt) s.
Definition answer (prompt : string) (s : state) : axios_result :=
  axios_post (posts (trace s)) (geminiApiKey s) prompt.

(** The recursive call passes the defaulted values on, and defaulting them
    again changes nothing. *)
Lemma budget_again maxRetries :
  budget (Some (budget maxRetries)) = budget maxRetries.
Proof.
  unfold budget, js_or. destruct maxRetries as [z|];
    repeat match goal with
           | |- context [?a =? ?b] => destruct (Z.eqb_spec a b)
           end; congruence.
Qed.

Lemma attempts_done_succ retries :
  attempts_done (Some (attempts_done retries + 1)) = attempts_done retries + 1.
Proof.
  unfold attempts_done, js_or at 1.
  destruct (Z.eqb_spec (js_or retries 0 + 1) 0); lia.
Qed.

(** Lines 99-155.  The [try] block posts the request and throws [NoImage]
    itself when the payload has no image; the [catch] block sees that error
    too, and since it has no [response] it reaches the last branch, as does
    every rejection whose status is neither 429 nor 503.  The recursion is on
    [maxRetries - retries], which every retry makes smaller. *)
Equations? generateImage (prompt : string) (retries maxRetries : option Z)
    (s : state) : state * outcome Buffer
    by wf (Z.to_nat (budget maxRetries - attempts_done retries)) lt :=
  generateImage prompt retries maxRetries s :=
    let retries' := attempts_done retries in
    let maxRetries' := budget maxRetries in
    if negb (truthy (geminiApiKey s)) then (s, Thrown NoApiKey)
    else
      match Z_ge_dec retries' maxRetries' with
      | left _ => (s, Thrown MaxRetries)
      | right Hlt =>
          match answer prompt s with
          | Response base64Data =>
              match base64Data with
              | Some d =>
                  if String.eqb d "" then (posted prompt s, Thrown NoImage)
                  else (posted prompt s, Returned (Buffer_from d))
              | None => (posted prompt s, Thrown NoImage)
              end
          | Rejected status message =>
              if has_status status 429 then
                generateImage prompt (Some (retries' + 1)) (Some maxRetries')
                              (sleep 1000 (getNextApiKey (posted prompt s)))
              else if has_status status 503 then
                generateImage prompt (Some (retries' + 1)) (Some maxRetries')
                              (getNextApiKey (sleep 5000 (posted prompt s)))
              else (posted prompt s, Thrown (AxiosError status message))
          end
      end.
Proof.
  all: subst retries' maxRetries';
    pose proof (budget_again maxRetries) as Hb;
    pose proof (attempts_done_succ retries) as Ha;
    unfold budget at 1, js_or at 1 in Hb;
    unfold attempts_done at 1, js_or at 1 in Ha;
    rewrite Hb, Ha; lia.
Qed.

End Server.

(** ** Numbers that are not integers *)

(** The watermark sizes go through [width * 0.4] and a quotient, which are not
    integers: these two expressions are evaluated in binary64, as JavaScript
    evaluates them, with Rocq's primitive floats. *)

(** An integer as a JavaScript number: the nearest binary64 value, the
    integer itself below [2^53]. *)
Definition js_number (z : Z) : float :=
  SF2Prim (binary_normalize prec emax z 0 false).

Definition js_float (a : jsnum) : float :=
  match a with
  | Num z => js_number z
  | NaN => nan
  end.

(** [Math.round(x)]: the integer nearest to [x], a tie going up.  For
    [x = n * 2^e] with [e < 0] this is [floor((2n + 2^-e) / 2^(1-e))], written
    with shifts.  [NaN] stays [NaN]; an infinity, which is not an integer
    either and which sharp rejects alike, is not told apart from it. *)
Definition Math_round (x : float) : jsnum :=
  match Prim2SF x with
  | S754_zero _ => Num 0
  | S754_finite s m e =>
      let n := if s then Z.neg m else Z.pos m in
      Num (if 0 <=? e then Z.shiftl n e
           else Z.shiftr (2 * n + Z.shiftl 1 (- e)) (1 - e))
  | _ => NaN
  end.

Definition Math_min (a b : jsnum) : jsnum :=
  match a, b with
  | Num x, Num y => Num (Z.min x y)
  | _, _ => NaN
  end.

(** The literals [0.4] and [0.7] as the binary64 values JavaScript reads. *)
Definition lit_0_4 : float := 0x1.999999999999ap-2%float.
Definition lit_0_7 : float := 0x1.6666666666666p-1%float.

(** ** applyWatermark: index.js, lines 158-191 *)

Definition maxLogoWidth : Z := 100.
Definition padding : Z := 10.

(** [Math.min(Math.round(width * 0.4), maxLogoWidth)] *)
Definition targetLogoWidth (width : Z) : jsnum :=
  Math_min (Math_round (js_number width * lit_0_4)%float) (Num maxLogoWidth).

(** [Math.round((targetLogoWidth / logoMetadata.width) * logoMetadata.height)] *)
Definition targetLogoHeight (targetLogoWidth : jsnum) (logoWidth logoHeight : Z)
  : jsnum :=
  Math_round
    ((js_float targetLogoWidth / js_number logoWidth) * js_number logoHeight)%float.

(** [Math.max(0, width - targetLogoWidth - padding)], on integers. *)
Definition logo_left (width targetLogoWidth : Z) : Z :=
  Z.max 0 (width - targetLogoWidth - padding).

(** One entry of the array given to [composite]. *)
Module Overlay.
Record t := Make {
  input : list Byte.byte;
  top : Z;
  left : Z;
  blend : string;
  opacity : float
}.
End Overlay.

(** The files on disk, by path. *)
Abbreviation files := (gmap string (list Byte.byte)).

Section Watermark.

(** sharp, as far as [applyWatermark] uses it.  [metadata] gives the width and
    the height of an encoded image; [resize] is
    [.resize(w, h, {fit: "contain", background: transparent}).toBuffer()] on
    sizes that passed sharp's own check; [composite] is what
    [.composite([o]).toFile(outputPath)] writes.  Each may throw. *)
Variable sharp_metadata : list Byte.byte → outcome (Z * Z).
Variable sharp_resize : list Byte.byte → Z → Z → outcome (list Byte.byte).
Variable sharp_composite :
  list Byte.byte → Overlay.t → string → outcome (list Byte.byte).

(** Opening a path: sharp fails on a file that is not there. *)
Definition sharp_open (fs : files) (path : string) : outcome (list Byte.byte) :=
  match fs !! path with
  | Some content => Returned content
  | None => Thrown (Error ("Input file is missing: " +:+ path))
  end.

(** sharp's check of one [resize] argument: a positive integer. *)
Definition positive_integer (name : string) (a : jsnum) : outcome Z :=
  match a with
  | Num z =>
      if 0 <? z then Returned z
      else Thrown (Error ("Expected positive integer for " +:+ name
                          +:+ " but received " +:+ js_show a
                          +:+ " of type number"))
  | NaN =>
      Thrown (Error ("Expected positive integer for " +:+ name
                     +:+ " but received NaN of type number"))
  end.

Definition applyWatermark (fs : files) (imagePath logoPath outputPath : string)
  : files * outcome string :=
  match sharp_open fs imagePath with
  | Thrown e => (fs, Thrown e)
  | Returned image =>
  match sharp_metadata image with
  | Thrown e => (fs, Thrown e)
  | Returned (width, height) =>
  match sharp_open fs logoPath with
  | Thrown e => (fs, Thrown e)
  | Returned logo =>
  match sharp_metadata logo with
  | Thrown e => (fs, Thrown e)
  | Returned (logoWidth, logoHeight) =>
      let w := targetLogoWidth width in
      let h := targetLogoHeight w logoWidth logoHeight in
      match positive_integer "width" w with
      | Thrown e => (fs, Thrown e)
      | Returned w' =>
      match positive_integer "height" h with
      | Thrown e => (fs, Thrown e)
      | Returned h' =>
      match sharp_resize logo w' h' with
      | Thrown e => (fs, Thrown e)
      | Returned resizedLogo =>
          let o := Overlay.Make resizedLogo padding (logo_left width w') "over"
                                lit_0_7 in
          match sharp_composite image o outputPath with
          | Thrown e => (fs, Thrown e)
          | Returned out => (<[outputPath := out]> fs, Returned outputPath)
          end
      end end end
  end end end end.

End Watermark.

(** ** GET /api/gallery: index.js, lines 349-365 *)

Module GalleryItem.
Record t := Make {
  id : Z;
  username : string;
  inscription : string;
  imageUrl : string
}.
End GalleryItem.

(** [.sort({ id: -1 })]: the documents by descending [id]. *)
Definition id_desc (a b : GalleryItem.t) : Prop :=
  GalleryItem.id b ≤ GalleryItem.id a.

Global Instance id_desc_dec : RelDecision id_desc.
Proof. intros a b. unfold id_desc. apply _. Defined.

(** [GalleryItem.find().sort({ id: -1 }).skip(skip).limit(limit)]: the store
    refuses a negative [skip]. *)
Definition find_sort_skip_limit (docs : list GalleryItem.t) (skip limit : Z)
  : outcome (list GalleryItem.t) :=
  if skip <? 0 then Thrown (Error "Skip value must be non-negative")
  else Returned (take (Z.to_nat limit)
                      (drop (Z.to_nat skip) (merge_sort id_desc docs))).

Inductive reply :=
| Json (total : Z) (items : list GalleryItem.t)
| Status500 (error : string).

(** The route, given the stored documents and [parseInt(req.query.page)]. *)
Definition gallery (docs : list GalleryItem.t) (parsedPage : jsnum) : reply :=
  let page := match parsedPage with
              | Num z => if z =? 0 then 1 else z
              | NaN => 1
              end in
  let limit := 10 in
  let skip := (page - 1) * limit in
  let total := Z.of_nat (length docs) in
  match find_sort_skip_limit docs skip limit with
  | Returned items => Json total items
  | Thrown _ => Status500 "Failed to fetch gallery."
  end.

(** ** Start-up: index.js, lines 78-88 *)

(** [`GEMINI_API_KEY_${keyIndex}`] *)
Definition key_name (keyIndex : Z) : string :=
  "GEMINI_API_KEY_" +:+ js_show (Num keyIndex).

(** Lines 79-84: [while (process.env[name]) { push; keyIndex++ }], with the
    environment as a finite map from names to strings.  [fuel] bounds the
    number of turns; [load_geminiApiKeys] gives one more than the
    environment has variables, which the loop never uses up. *)
Fixpoint load_keys (env : gmap string string) (fuel : nat) (keyIndex : Z)
  : list string :=
  match fuel with
  | O => []
  | S fuel' =>
      match env !! key_name keyIndex with
      | Some v =>
          if truthy (Some v) then v :: load_keys env fuel' (keyIndex + 1)
          else []
      | None => []
      end
  end.

Definition load_geminiApiKeys (env : gmap string string) : list string :=
  load_keys env (S (size env)) 1.

(** ** POST /api/generate-image: index.js, lines 194-304 *)

(** [path.join(__dirname, name)] for a plain file name. *)
Definition path_join (dir name : string) : string := dir +:+ "/" +:+ name.

(** [await fs.unlink(p1); await fs.unlink(p2); ...] inside one [try] whose
    [catch] only logs: the first path that is not there throws ENOENT and the
    rest is skipped. *)
Fixpoint unlink_all (paths : list string) (disk : files) : files :=
  match paths with
  | [] => disk
  | p :: rest =>
      match disk !! p with
      | Some _ => unlink_all rest (delete p disk)
      | None => disk
      end
  end.

(** What a request can change: the key pool, the files of the server's
    directory and the stored gallery items. *)
Record world := World {
  pool : state;
  disk : files;
  galleryItems : list GalleryItem.t
}.

Inductive generated :=
| Generated (imageUrl message : string) (galleryItem : GalleryItem.t)
| Failed500 (error : string).

(** [GalleryItem.findOne().sort({ id: -1 })] *)
Definition findOne_sort_id_desc (docs : list GalleryItem.t)
  : option GalleryItem.t :=
  head (merge_sort id_desc docs).

Section Route.

Variable geminiApiKeys : list string.
Variable axios_post : nat → option string → string → axios_result.
(** [Buffer.from(data, "base64")] *)
Variable base64 : string → list Byte.byte.
Variable sharp_metadata : list Byte.byte → outcome (Z * Z).
Variable sharp_resize : list Byte.byte → Z → Z → outcome (list Byte.byte).
Variable sharp_composite :
  list Byte.byte → Overlay.t → string → outcome (list Byte.byte).
Variable dirname : string.
(** The value of [uuidv4()] in this request. *)
Variable uuid : string.
(** [cloudinary.uploader.upload], from the bytes of the file and the
    [public_id] to the [secure_url]. *)
Variable cloudinary_upload : list Byte.byte → string → outcome string.
(** What the awaited calls of [fs.writeFile], [GalleryItem.findOne] and
    [GalleryItem.create] reject with, if they do. *)
Variable writeFile_error findOne_error create_error : option error.

(** The [catch] of the route, after its clean-up. *)
Definition failed (w : world) (s : state) (d : files) : world * generated :=
  (World s d (galleryItems w),
   Failed500 "Failed to generate, watermark, or save image.").

(** The route.  [prompt] is the template of lines 198-232 filled in from the
    request body; [username] and [inscription] are the body's. *)
Definition generate_image (username inscription prompt : string) (w : world)
  : world * generated :=
  match generateImage geminiApiKeys axios_post (list Byte.byte) base64
                      prompt None None (pool w) with
  | (s, Thrown _) => failed w s (disk w)
  | (s, Returned imageBuffer) =>
  let fileName := "generated_image_" +:+ uuid +:+ ".png" in
  let filePath := path_join dirname fileName in
  match writeFile_error with
  | Some _ => failed w s (unlink_all [filePath] (disk w))
  | None =>
  let disk1 := <[filePath := imageBuffer]> (disk w) in
  let logoPath := path_join dirname "watermark_logo.png" in
  let watermarkedFileName := "watermarked_" +:+ fileName in
  let watermarkedFilePath := path_join dirname watermarkedFileName in
  match disk1 !! logoPath with
  | None => (World s (delete filePath disk1) (galleryItems w),
             Failed500 "Logo file not found.")
  | Some _ =>
  match applyWatermark sharp_metadata sharp_resize sharp_composite
                       disk1 filePath logoPath watermarkedFilePath with
  | (disk2, Thrown _) =>
      failed w s (unlink_all [filePath; watermarkedFilePath] disk2)
  | (disk2, Returned outputPath) =>
  match match disk2 !! outputPath with
        | Some content =>
            cloudinary_upload content ("watermarked_generated_image_" +:+ uuid)
        | None => Thrown (Error ("ENOENT: no such file or directory, open "
                                 +:+ outputPath))
        end with
  | Thrown _ => failed w s (unlink_all [filePath; watermarkedFilePath] disk2)
  | Returned secure_url =>
  let disk3 := unlink_all [filePath; watermarkedFilePath] disk2 in
  match findOne_error with
  | Some _ => failed w s (unlink_all [filePath; watermarkedFilePath] disk3)
  | None =>
  let lastItem := findOne_sort_id_desc (galleryItems w) in
  let nextId := match lastItem with
                | Some item => GalleryItem.id item + 1
                | None => 1
                end in
  match create_error with
  | Some _ => failed w s (unlink_all [filePath; watermarkedFilePath] disk3)
  | None =>
  let newItem := GalleryItem.Make nextId username inscription secure_url in
  (World s disk3 (galleryItems w ++ [newItem]),
   Generated secure_url "Image generated, watermarked, and saved." newItem)
  end end end end end end
  end.

End Route.

(** ** What the statements below speak of *)

(** The variables agree with the array: the index is one of its positions and
    [geminiApiKey] is the key stored there.  This holds at start-up for a
    non-empty array and after every rotation. *)
Definition pool_ok (keys : list string) (s : state) : Prop :=
  ∃ i, currentApiKeyIndex s = Num i
       ∧ 0 ≤ i < Z.of_nat (length keys)
       ∧ geminiApiKey s = keys !! Z.to_nat i.

(** The start-up loop only pushes truthy values. *)
Definition keys_ok (keys : list string) : Prop := Forall (λ k, k ≠ "") keys.

(** A client that answers 429 to every request that carries [prompt]. *)
Definition always_429 (net : nat → option string → string → axios_result)
    (prompt : string) : Prop :=
  ∀ n key, ∃ message, net n key prompt = Rejected (Some 429) message.

(** C1 as the specification words it: after a failed attempt the call goes
    on as the call for the next attempt, made from the state in which the
    pool was advanced and a second has passed. *)
Definition retried_after_failure (keys : list string)
    (net : nat → option string → string → axios_result)
    (prompt : string) (retries maxRetries : option Z) (s : state) : Prop :=
  generateImage keys net string (λ d, d) prompt retries maxRetries s
  = generateImage keys net string (λ d, d) prompt
      (Some (attempts_done retries + 1)) maxRetries
      (sleep 1000 (getNextApiKey keys (posted prompt s))).

(** C10 as it is stated: the call sends at least one request. *)
Definition attempt_made (keys : list string)
    (net : nat → option string → string → axios_result)
    (prompt : string) (retries maxRetries : option Z) (s : state) : Prop :=
  (posts (trace s)
   < posts (trace (generateImage keys net string (λ d, d) prompt retries
                                 maxRetries s).1))%nat.


(** C9 as the specification words it: a listing sorted by [id] descending
    with at most one item per username, and the number of distinct
    usernames as the total. *)
Definition deduplicated_listing (docs : list GalleryItem.t) (r : reply) : Prop :=
  ∃ total items,
    r = Json total items
    ∧ StronglySorted id_desc items
    ∧ NoDup (GalleryItem.username <$> items)
    ∧ total = Z.of_nat (length (remove_dups (GalleryItem.username <$> docs))).


(** *** For the statements about every call, the pages and the route *)

(** The milliseconds a trace spends in [setTimeout]. *)
Definition waited (t : list event) : Z :=
  foldr (λ e acc, match e with Slept ms => ms + acc | _ => acc end) 0 t.

(** The keys of the requests of a trace, in order. *)
Definition posted_keys (t : list event) : list (option string) :=
  omap (λ e, match e with Posted key _ => Some key | _ => None end) t.

(** The state in which the next attempt starts, after a 429 and after a 503. *)
Definition after_429 (keys : list string) (prompt : string) (s : state)
  : state :=
  sleep 1000 (getNextApiKey keys (posted prompt s)).
Definition after_503 (keys : list string) (prompt : string) (s : state)
  : state :=
  getNextApiKey keys (sleep 5000 (posted prompt s)).

(** A client that answers every request that carries [prompt] with a 429 or
    a 503. *)
Definition always_retryable
    (net : nat → option string → string → axios_result) (prompt : string)
  : Prop :=
  ∀ n key, ∃ status message,
    net n key prompt = Rejected status message
    ∧ (has_status status 429 = true ∨ has_status status 503 = true).

(** The items of a reply, none for an error. *)
Definition reply_items (r : reply) : list GalleryItem.t :=
  match r with
  | Json _ items => items
  | Status500 _ => []
  end.

(** The items of the pages [1 .. n], in the order of the pages. *)
Definition pages_upto (docs : list GalleryItem.t) (n : nat)
  : list GalleryItem.t :=
  concat ((λ p : nat, reply_items (gallery docs (Num (Z.of_nat p))))
            <$> seq 1 n).

(** ** Concrete pools, clients and files *)

(** A client that answers 429 to every request. *)
Definition quota_client : nat → option string → string → axios_result :=
  λ _ _ _, Rejected (Some 429) "Request failed with status code 429".

(** A client that answers 429 twice and then sends an image. *)
Definition third_time_client : nat → option string → string → axios_result :=
  λ n _ _, if (n <? 2)%nat
           then Rejected (Some 429) "Request failed with status code 429"
           else Response (Some "aW1hZ2U=").

(** A client whose first response has no image, and the later ones do. *)
Definition empty_first_client : nat → option string → string → axios_result :=
  λ n _ _, if (n =? 0)%nat then Response None else Response (Some "aW1hZ2U=").

(** A stand-in for sharp, to run [applyWatermark]: every image is 1000 × 1000,
    resizing keeps the bytes and compositing appends the overlay's. *)
Definition sample_metadata : list Byte.byte → outcome (Z * Z) :=
  λ _, Returned (1000, 1000).
Definition sample_resize : list Byte.byte → Z → Z → outcome (list Byte.byte) :=
  λ b _ _, Returned b.
Definition sample_composite
  : list Byte.byte → Overlay.t → string → outcome (list Byte.byte) :=
  λ image o _, Returned (image ++ Overlay.input o)%list.

Definition sample_files (extra : list Byte.byte) : files :=
  <["generated.png" := [Byte.x01]]>
    (<["watermark_logo.png" := [Byte.x02]]> (<["notes.txt" := extra]> ∅)).

(** An environment in which the first key is missing and the second is set. *)
Definition gap_env : gmap string string :=
  <["GEMINI_API_KEY_2" := "key-b"]> (<["PORT" := "5000"]> ∅).

(** A stand-in for sharp's metadata in which the logo, the file of one byte
    [x02], is 1000 × 1 and every other image 1000 × 1000. *)
Definition flat_logo_metadata : list Byte.byte → outcome (Z * Z) :=
  λ b, match b with
       | [Byte.x02] => Returned (1000, 1)
       | _ => Returned (1000, 1000)
       end.

(** A client that sends an image at once, a decoder, an upload and a server
    directory that holds the logo, to run the route. *)
Definition ready_client : nat → option string → string → axios_result :=
  λ _ _ _, Response (Some "aW1hZ2U=").
Definition sample_base64 : string → list Byte.byte := λ _, [Byte.x01].
Definition sample_upload : list Byte.byte → string → outcome string :=
  λ _ public_id,
    Returned ("https://res.cloudinary.com/zule-pfps/" +:+ public_id +:+ ".png").
Definition server_files : files :=
  <["/app/watermark_logo.png" := [Byte.x02]]> ∅.
Definition sample_world (docs : list GalleryItem.t) : world :=
  World (initial_state ["key-a"; "key-b"]) server_files docs.

(** The sample route: directory [/app], uuid [u1], no failing call. *)
Definition sample_route (username inscription : string) (w : world)
  : world * generated :=
  generate_image ["key-a"; "key-b"] ready_client sample_base64
    sample_metadata sample_resize sample_composite "/app" "u1" sample_upload
    None None None username inscription "a hat" w.

(** * Part II: properties *)

(** ** The key pool *)

Section KeyPool.

Variable keys : list string.

Lemma js_get_in_range (i : Z) :
  0 ≤ i → js_get keys (Num i) = keys !! Z.to_nat i.
Proof.
  intros Hi. unfold js_get. destruct (Z.ltb_spec i 0); [lia | reflexivity].
Qed.

Lemma initial_state_ok : keys ≠ [] → pool_ok keys (initial_state keys).
Proof.
  intros Hne. exists 0. simpl. split; [reflexivity | split]; [| reflexivity].
  assert (length keys ≠ 0%nat) by (intros E; apply Hne, nil_length_inv, E).
  lia.
Qed.

Lemma getNextApiKey_index s i :
  currentApiKeyIndex s = Num i → 0 ≤ i → 0 < Z.of_nat (length keys) →
  currentApiKeyIndex (getNextApiKey keys s)
  = Num ((i + 1) mod Z.of_nat (length keys)).
Proof.
  intros Hi Hpos Hlen. unfold getNextApiKey. simpl. rewrite Hi. simpl.
  destruct (Z.eqb_spec (Z.of_nat (length keys)) 0); [lia |].
  rewrite Z.rem_mod_nonneg by lia. reflexivity.
Qed.

Lemma getNextApiKey_key s :
  geminiApiKey (getNextApiKey keys s)
  = js_get keys (currentApiKeyIndex (getNextApiKey keys s)).
Proof. reflexivity. Qed.

Lemma getNextApiKey_ok s : pool_ok keys s → pool_ok keys (getNextApiKey keys s).
Proof.
  intros (i & Hi & Hr & _).
  exists ((i + 1) mod Z.of_nat (length keys)).
  assert (0 ≤ (i + 1) mod Z.of_nat (length keys) < Z.of_nat (length keys))
    by (apply Z.mod_pos_bound; lia).
  split; [apply getNextApiKey_index; (assumption || lia) | split; [assumption |]].
  rewrite getNextApiKey_key, (getNextApiKey_index s i) by (assumption || lia).
  apply js_get_in_range. lia.
Qed.

Lemma iter_getNextApiKey_index s i n :
  currentApiKeyIndex s = Num i → 0 ≤ i < Z.of_nat (length keys) →
  currentApiKeyIndex (Nat.iter n (getNextApiKey keys) s)
  = Num ((i + Z.of_nat n) mod Z.of_nat (length keys)).
Proof.
  intros Hi Hr. induction n as [|n IH].
  - simpl. rewrite Z.add_0_r, Z.mod_small by lia. exact Hi.
  - rewrite Nat.iter_succ.
    rewrite (getNextApiKey_index _ _ IH); [| apply Z.mod_pos_bound; lia | lia].
    rewrite Zplus_mod_idemp_l. f_equal. f_equal. lia.
Qed.

Lemma pool_ok_truthy s :
  keys_ok keys → pool_ok keys s → truthy (geminiApiKey s) = true.
Proof.
  intros Hk (i & _ & Hr & Hkey). rewrite Hkey.
  destruct (keys !! Z.to_nat i) as [k|] eqn:E.
  - simpl. unfold keys_ok in Hk. rewrite Forall_lookup in Hk.
    specialize (Hk _ _ E).
    destruct (String.eqb_spec k ""); [contradiction | reflexivity].
  - apply lookup_ge_None in E. lia.
Qed.

(** Rotation reads the index only. *)
Lemma rotated_alike s1 s2 :
  currentApiKeyIndex s1 = currentApiKeyIndex s2 →
  currentApiKeyIndex (getNextApiKey keys s1)
  = currentApiKeyIndex (getNextApiKey keys s2)
  ∧ geminiApiKey (getNextApiKey keys s1) = geminiApiKey (getNextApiKey keys s2).
Proof. intros H. unfold getNextApiKey. simpl. rewrite H. split; reflexivity. Qed.

Lemma iter_rotated_alike n s1 s2 :
  currentApiKeyIndex s1 = currentApiKeyIndex s2 →
  currentApiKeyIndex (Nat.iter (S n) (getNextApiKey keys) s1)
  = currentApiKeyIndex (Nat.iter (S n) (getNextApiKey keys) s2)
  ∧ geminiApiKey (Nat.iter (S n) (getNextApiKey keys) s1)
    = geminiApiKey (Nat.iter (S n) (getNextApiKey keys) s2).
Proof.
  intros H. induction n as [|n IH].
  - apply rotated_alike, H.
  - rewrite !(Nat.iter_succ (S n)). apply rotated_alike, IH.
Qed.

End KeyPool.

(** C5.  In a pool of [k ≥ 1] keys, from any position [i] of the array, [k]
    calls of [getNextApiKey] bring the index back to [i] and the key in use
    back to the one the pool started at, and after any number of calls the
    index is a position of the array, in [[0, k)]. *)
Theorem getNextApiKey_cyclic (keys : list string) (s : state) (i : Z) :
  currentApiKeyIndex s = Num i →
  0 ≤ i < Z.of_nat (length keys) →
  geminiApiKey s = js_get keys (Num i) →
  let after n := Nat.iter n (getNextApiKey keys) s in
  currentApiKeyIndex (after (length keys)) = Num i
  ∧ geminiApiKey (after (length keys)) = geminiApiKey s
  ∧ ∀ n, ∃ j, currentApiKeyIndex (after n) = Num j
              ∧ 0 ≤ j < Z.of_nat (length keys).
Proof.
  intros Hi Hr Hkey after.
  assert (Hback : currentApiKeyIndex (after (length keys)) = Num i).
  { unfold after. rewrite (iter_getNextApiKey_index keys s i) by assumption.
    rewrite <- (Z.mul_1_l (Z.of_nat (length keys))) at 1.
    rewrite Z.mod_add, Z.mod_small by lia. reflexivity. }
  split; [exact Hback | split].
  - unfold after in *.
    destruct (length keys) as [|k] eqn:E; [simpl in Hr; lia |].
    rewrite Nat.iter_succ in *.
    rewrite getNextApiKey_key, Hback. symmetry. exact Hkey.
  - intros n. exists ((i + Z.of_nat n) mod Z.of_nat (length keys)). split.
    + apply iter_getNextApiKey_index; assumption.
    + apply Z.mod_pos_bound. lia.
Qed.

Lemma getNextApiKey_cyclic_witness :
  let keys := ["key-a"; "key-b"; "key-c"] in
  let s := getNextApiKey keys (initial_state keys) in
  currentApiKeyIndex (Nat.iter 3 (getNextApiKey keys) s) = Num 1
  ∧ geminiApiKey (Nat.iter 3 (getNextApiKey keys) s) = Some "key-b".
Proof.
  intros keys s.
  destruct (getNextApiKey_cyclic keys s 1) as (H1 & H2 & _);
    [reflexivity | simpl; lia | reflexivity |].
  split; [exact H1 | exact H2].
Defined.

(** ** Counting in traces *)

Lemma posts_app t e :
  posts (t ++ [e]) = (posts t + if is_post e then 1 else 0)%nat.
Proof.
  unfold posts. rewrite filter_app, length_app. f_equal.
  destruct e; reflexivity.
Qed.

Lemma rotations_app t e :
  rotations (t ++ [e])
  = (rotations t + if decide (e = Rotated) then 1 else 0)%nat.
Proof.
  unfold rotations. rewrite filter_app, length_app. f_equal.
  destruct e; reflexivity.
Qed.

(** ** generateImage, one attempt at a time *)

Section Retry.

Variable keys : list string.
Variable net : nat → option string → string → axios_result.
Variable Buffer : Type.
Variable Buffer_from : string → Buffer.

Local Abbreviation gen := (generateImage keys net Buffer Buffer_from).

(** Unfolds the call on the left of the goal as far as the two guards. *)
Ltac enter_attempt Htruthy :=
  match goal with
  | |- generateImage _ _ _ _ ?p ?r ?m ?s = _ =>
      rewrite (generateImage_equation_1 _ _ _ _ p r m s); cbv zeta;
      rewrite Htruthy; cbn [negb];
      destruct (Z_ge_dec _ _); [lia |]
  end.

Lemma generateImage_no_key prompt r m s :
  truthy (geminiApiKey s) = false → gen prompt r m s = (s, Thrown NoApiKey).
Proof.
  intros H. rewrite generateImage_equation_1. cbv zeta. rewrite H. reflexivity.
Qed.

Lemma generateImage_exhausted prompt r m s :
  truthy (geminiApiKey s) = true → budget keys m ≤ attempts_done r →
  gen prompt r m s = (s, Thrown MaxRetries).
Proof.
  intros H Hge. rewrite generateImage_equation_1. cbv zeta. rewrite H.
  cbn [negb]. destruct (Z_ge_dec _ _); [reflexivity | lia].
Qed.

Lemma generateImage_429 prompt r m s status message :
  truthy (geminiApiKey s) = true → attempts_done r < budget keys m →
  answer net prompt s = Rejected status message →
  has_status status 429 = true →
  gen prompt r m s
  = gen prompt (Some (attempts_done r + 1)) (Some (budget keys m))
        (sleep 1000 (getNextApiKey keys (posted prompt s))).
Proof.
  intros H Hlt Hnet Hst. enter_attempt H. rewrite Hnet, Hst. reflexivity.
Qed.

Lemma generateImage_503 prompt r m s status message :
  truthy (geminiApiKey s) = true → attempts_done r < budget keys m →
  answer net prompt s = Rejected status message →
  has_status status 429 = false → has_status status 503 = true →
  gen prompt r m s
  = gen prompt (Some (attempts_done r + 1)) (Some (budget keys m))
        (getNextApiKey keys (sleep 5000 (posted prompt s))).
Proof.
  intros H Hlt Hnet Hst Hst'. enter_attempt H.
  rewrite Hnet, Hst, Hst'. reflexivity.
Qed.

Lemma generateImage_image prompt r m s d :
  truthy (geminiApiKey s) = true → attempts_done r < budget keys m →
  answer net prompt s = Response (Some d) → d ≠ "" →
  gen prompt r m s = (posted prompt s, Returned (Buffer_from d)).
Proof.
  intros H Hlt Hnet Hd. enter_attempt H. rewrite Hnet.
  destruct (String.eqb_spec d ""); [contradiction | reflexivity].
Qed.

Lemma generateImage_no_image prompt r m s d :
  truthy (geminiApiKey s) = true → attempts_done r < budget keys m →
  answer net prompt s = Response d → truthy d = false →
  gen prompt r m s = (posted prompt s, Thrown NoImage).
Proof.
  intros H Hlt Hnet Hd. enter_attempt H. rewrite Hnet.
  destruct d as [d|]; [| reflexivity].
  simpl in Hd. destruct (String.eqb d ""); [reflexivity | discriminate].
Qed.

Lemma generateImage_other prompt r m s status message :
  truthy (geminiApiKey s) = true → attempts_done r < budget keys m →
  answer net prompt s = Rejected status message →
  has_status status 429 = false → has_status status 503 = false →
  gen prompt r m s = (posted prompt s, Thrown (AxiosError status message)).
Proof.
  intros H Hlt Hnet Hst Hst'. enter_attempt H.
  rewrite Hnet, Hst, Hst'. reflexivity.
Qed.

(** The state after a 429: rotated, then a second later. *)
Lemma after_429_ok prompt s :
  pool_ok keys s →
  pool_ok keys (sleep 1000 (getNextApiKey keys (posted prompt s))).
Proof.
  intros H. apply (getNextApiKey_ok keys (posted prompt s)). exact H.
Qed.

Lemma after_429_posts prompt s :
  posts (trace (sleep 1000 (getNextApiKey keys (posted prompt s))))
  = S (posts (trace s)).
Proof. simpl. rewrite !posts_app. simpl. lia. Qed.

Lemma after_429_rotations prompt s :
  rotations (trace (sleep 1000 (getNextApiKey keys (posted prompt s))))
  = S (rotations (trace s)).
Proof. simpl. rewrite !rotations_app. simpl. lia. Qed.

Lemma after_503_posts prompt s :
  posts (trace (getNextApiKey keys (sleep 5000 (posted prompt s))))
  = S (posts (trace s)).
Proof. simpl. rewrite !posts_app. simpl. lia. Qed.

Lemma posted_posts prompt s :
  posts (trace (posted prompt s)) = S (posts (trace s)).
Proof. simpl. rewrite posts_app. simpl. lia. Qed.

(** The requests already sent stay in the trace. *)
Lemma generateImage_posts_le prompt (n : nat) :
  ∀ r m s, (Z.to_nat (budget keys m - attempts_done r) ≤ n)%nat →
    (posts (trace s) ≤ posts (trace (gen prompt r m s).1))%nat.
Proof.
  induction n as [|n IH]; intros r m s Hn.
  all: destruct (truthy (geminiApiKey s)) eqn:Ht;
    [| rewrite generateImage_no_key by assumption; simpl; lia].
  all: destruct (Z_lt_dec (attempts_done r) (budget keys m)) as [Hlt|Hge];
    [| rewrite generateImage_exhausted by (assumption || lia); simpl; lia].
  - lia.
  - assert (Hrec : ∀ s2, (posts (trace s) ≤ posts (trace s2))%nat →
        (posts (trace s)
         ≤ posts (trace (gen prompt (Some (attempts_done r + 1)%Z)
                             (Some (budget keys m)) s2).1))%nat).
    { intros s2 H2. etransitivity; [exact H2 |]. apply IH.
      rewrite budget_again, attempts_done_succ. lia. }
    pose proof (posted_posts prompt s) as Hp.
    destruct (answer net prompt s) as [d|status message] eqn:Ha.
    + destruct (truthy d) eqn:Hd.
      * destruct d as [d|]; [| discriminate]. simpl in Hd.
        rewrite (generateImage_image prompt r m s d); try assumption.
        -- cbn [fst]. lia.
        -- intros ->. discriminate.
      * rewrite (generateImage_no_image prompt r m s d) by assumption.
        cbn [fst]. lia.
    + destruct (has_status status 429) eqn:H429.
      * rewrite (generateImage_429 prompt r m s status message) by assumption.
        apply Hrec. rewrite after_429_posts. lia.
      * destruct (has_status status 503) eqn:H503.
        -- rewrite (generateImage_503 prompt r m s status message) by assumption.
           apply Hrec. rewrite after_503_posts. lia.
        -- rewrite (generateImage_other prompt r m s status message) by assumption.
           cbn [fst]. lia.
Qed.

(** *** A client that always answers 429 *)

Lemma rate_limited_run prompt (d : nat) :
  keys_ok keys → always_429 net prompt →
  ∀ r m s, pool_ok keys s →
    budget keys m - attempts_done r = Z.of_nat d →
    ∃ s', gen prompt r m s = (s', Thrown MaxRetries)
          ∧ posts (trace s') = (posts (trace s) + d)%nat
          ∧ rotations (trace s') = (rotations (trace s) + d)%nat
          ∧ pool_ok keys s'.
Proof.
  intros Hk Hnet. induction d as [|d IH]; intros r m s Hs Hd.
  - exists s.
    rewrite generateImage_exhausted; [| eauto using pool_ok_truthy | lia].
    repeat split; (lia || assumption).
  - destruct (Hnet (posts (trace s)) (geminiApiKey s)) as [message Hm].
    rewrite (generateImage_429 prompt r m s (Some 429) message);
      [| eauto using pool_ok_truthy | lia | exact Hm | reflexivity].
    destruct (IH (Some (attempts_done r + 1)) (Some (budget keys m))
                 (sleep 1000 (getNextApiKey keys (posted prompt s))))
      as (s' & Hrun & Hp & Hr & Hok).
    + apply after_429_ok, Hs.
    + rewrite budget_again, attempts_done_succ. lia.
    + exists s'. rewrite Hrun, Hp, Hr, after_429_posts, after_429_rotations.
      repeat split; (lia || assumption).
Qed.

(** *** A client that answers 429 [j] times and then sends an image *)

Lemma success_run prompt (j : nat) (d : string) :
  keys_ok keys → d ≠ "" →
  ∀ r m s, pool_ok keys s →
    attempts_done r + Z.of_nat j < budget keys m →
    (∀ i key, (i < j)%nat →
       ∃ message,
         net (posts (trace s) + i)%nat key prompt = Rejected (Some 429) message) →
    (∀ key, net (posts (trace s) + j)%nat key prompt = Response (Some d)) →
    ∃ s', gen prompt r m s = (s', Returned (Buffer_from d))
          ∧ rotations (trace s') = (rotations (trace s) + j)%nat
          ∧ posts (trace s') = (posts (trace s) + j + 1)%nat
          ∧ currentApiKeyIndex s'
            = currentApiKeyIndex (Nat.iter j (getNextApiKey keys) s)
          ∧ geminiApiKey s' = geminiApiKey (Nat.iter j (getNextApiKey keys) s).
Proof.
  intros Hk Hd. induction j as [|j IH]; intros r m s Hs Hlt Hfail Hgood.
  - exists (posted prompt s).
    rewrite (generateImage_image prompt r m s d);
      [| eauto using pool_ok_truthy | lia
       | unfold answer; rewrite <- (Nat.add_0_r (posts (trace s))); apply Hgood
       | exact Hd].
    simpl. rewrite posts_app, rotations_app. simpl. repeat split; lia.
  - destruct (Hfail 0%nat (geminiApiKey s)) as [message Hm]; [lia |].
    rewrite Nat.add_0_r in Hm.
    rewrite (generateImage_429 prompt r m s (Some 429) message);
      [| eauto using pool_ok_truthy | lia | exact Hm | reflexivity].
    set (s2 := sleep 1000 (getNextApiKey keys (posted prompt s))).
    destruct (IH (Some (attempts_done r + 1)) (Some (budget keys m)) s2)
      as (s' & Hrun & Hr & Hp & Hi & Hkey).
    + apply after_429_ok, Hs.
    + rewrite budget_again, attempts_done_succ. lia.
    + intros i key Hi. unfold s2. rewrite after_429_posts.
      replace (S (posts (trace s)) + i)%nat
        with (posts (trace s) + S i)%nat by lia.
      apply Hfail. lia.
    + intros key. unfold s2. rewrite after_429_posts.
      replace (S (posts (trace s)) + j)%nat
        with (posts (trace s) + S j)%nat by lia.
      apply Hgood.
    + exists s'. unfold s2 in Hr, Hp. rewrite after_429_rotations in Hr.
      rewrite after_429_posts in Hp.
      split; [exact Hrun | split; [lia | split; [lia |]]].
      rewrite Hi, Hkey, Nat.iter_succ_r.
      destruct j as [|j]; [split; reflexivity |].
      apply iter_rotated_alike. reflexivity.
Qed.

(** *** The claims about generateImage *)

(** C2.  With a non-empty pool and a client that answers 429 to every
    request, [generateImage] sends exactly as many requests as its budget
    and then throws "Max retries reached": [2 * geminiApiKeys.length]
    requests when no budget is given, [m] requests for a budget [m > 0].
    Each of them is followed by a rotation.  The call ends: the function is
    total. *)
Theorem always_rate_limited_exhausts_budget prompt (maxRetries : option Z)
    (s : state) :
  keys_ok keys → pool_ok keys s → always_429 net prompt →
  ∃ s', generateImage keys net Buffer Buffer_from prompt None maxRetries s
        = (s', Thrown MaxRetries)
        ∧ posts (trace s')
          = (posts (trace s) + Z.to_nat (budget keys maxRetries))%nat
        ∧ rotations (trace s')
          = (rotations (trace s) + Z.to_nat (budget keys maxRetries))%nat
        ∧ budget keys None = 2 * Z.of_nat (length keys)
        ∧ (∀ m, 0 < m → budget keys (Some m) = m).
Proof.
  intros Hk Hs Hnet.
  assert (Hnone : budget keys None = 2 * Z.of_nat (length keys))
    by (unfold budget, js_or; lia).
  assert (Hsome : ∀ m, 0 < m → budget keys (Some m) = m).
  { intros m Hm. unfold budget, js_or. destruct (Z.eqb_spec m 0); lia. }
  destruct (Z_le_gt_dec (budget keys maxRetries) 0) as [Hle | Hgt].
  - exists s. rewrite generateImage_exhausted;
      [| eauto using pool_ok_truthy | unfold attempts_done, js_or; lia].
    replace (Z.to_nat (budget keys maxRetries)) with 0%nat by lia.
    repeat split; (lia || assumption).
  - destruct (rate_limited_run prompt (Z.to_nat (budget keys maxRetries))
                Hk Hnet None maxRetries s Hs) as (s' & Hrun & Hp & Hr & _).
    + unfold attempts_done, js_or. lia.
    + exists s'. repeat split; assumption.
Qed.

(** C4.  With a non-empty pool, if the requests of attempts [0 .. j-1] of a
    call are answered 429 and the request of attempt [j], below the budget,
    brings an image, then the call returns the decoded bytes of that image,
    after exactly [j] rotations (the index and the key in use are those of
    [j] calls of [getNextApiKey]) and [j + 1] requests. *)
Theorem success_on_attempt_j prompt (j : nat) (d : string)
    (maxRetries : option Z) (s : state) :
  keys_ok keys → pool_ok keys s → d ≠ "" →
  Z.of_nat j < budget keys maxRetries →
  (∀ i key, (i < j)%nat →
     ∃ message,
       net (posts (trace s) + i)%nat key prompt = Rejected (Some 429) message) →
  (∀ key, net (posts (trace s) + j)%nat key prompt = Response (Some d)) →
  ∃ s', generateImage keys net Buffer Buffer_from prompt None maxRetries s
        = (s', Returned (Buffer_from d))
        ∧ rotations (trace s') = (rotations (trace s) + j)%nat
        ∧ posts (trace s') = (posts (trace s) + j + 1)%nat
        ∧ currentApiKeyIndex s'
          = currentApiKeyIndex (Nat.iter j (getNextApiKey keys) s)
        ∧ geminiApiKey s' = geminiApiKey (Nat.iter j (getNextApiKey keys) s).
Proof.
  intros Hk Hs Hd Hj Hfail Hgood.
  apply success_run; assumption.
Qed.

(** C1, as index.js has it.  Below the budget, an attempt whose response has
    no image, or whose request fails with a status other than 429 and 503 (or
    with no response at all), ends the call: [generateImage] throws that
    attempt's error from the state in which the request went out, with no
    rotation, no wait and no further attempt.  Only 429 and 503 lead to
    another attempt. *)
Theorem failure_surfaces_at_once prompt (retries maxRetries : option Z)
    (s : state) :
  truthy (geminiApiKey s) = true →
  attempts_done retries < budget keys maxRetries →
  (∀ d, answer net prompt s = Response d → truthy d = false →
     generateImage keys net Buffer Buffer_from prompt retries maxRetries s
     = (posted prompt s, Thrown NoImage))
  ∧ (∀ status message, answer net prompt s = Rejected status message →
       has_status status 429 = false → has_status status 503 = false →
       generateImage keys net Buffer Buffer_from prompt retries maxRetries s
       = (posted prompt s, Thrown (AxiosError status message)))
  ∧ trace (posted prompt s)
    = (trace s ++ [Posted (geminiApiKey s) prompt])%list
  ∧ currentApiKeyIndex (posted prompt s) = currentApiKeyIndex s
  ∧ geminiApiKey (posted prompt s) = geminiApiKey s
  ∧ (∀ status message, answer net prompt s = Rejected status message →
       has_status status 429 = true →
       generateImage keys net Buffer Buffer_from prompt retries maxRetries s
       = generateImage keys net Buffer Buffer_from prompt
           (Some (attempts_done retries + 1)) (Some (budget keys maxRetries))
           (sleep 1000 (getNextApiKey keys (posted prompt s))))
  ∧ (∀ status message, answer net prompt s = Rejected status message →
       has_status status 429 = false → has_status status 503 = true →
       generateImage keys net Buffer Buffer_from prompt retries maxRetries s
       = generateImage keys net Buffer Buffer_from prompt
           (Some (attempts_done retries + 1)) (Some (budget keys maxRetries))
           (getNextApiKey keys (sleep 5000 (posted prompt s)))).
Proof.
  intros H Hlt.
  split; [| split; [| split; [| split; [| split; [| split]]]]]; try reflexivity.
  - intros d. apply generateImage_no_image; assumption.
  - intros status message. apply generateImage_other; assumption.
  - intros status message. apply generateImage_429; assumption.
  - intros status message. apply generateImage_503; assumption.
Qed.

(** C3.  With no key in the pool the variable [geminiApiKey] is [undefined],
    and [generateImage] throws "No API key available." from the state it was
    called in: nothing is sent, nothing is rotated. *)
Theorem empty_pool_no_attempt prompt (retries maxRetries : option Z) (s : state) :
  keys = [] →
  geminiApiKey s = js_get keys (currentApiKeyIndex s) →
  generateImage keys net Buffer Buffer_from prompt retries maxRetries s
  = (s, Thrown NoApiKey)
  ∧ generateImage keys net Buffer Buffer_from prompt retries maxRetries
      (initial_state keys)
    = (initial_state keys, Thrown NoApiKey)
  ∧ posts (trace (initial_state keys)) = 0%nat.
Proof.
  intros Hnil Hkey.
  assert (Hnone : ∀ i, js_get keys i = None).
  { intros [z|]; [| reflexivity]. rewrite Hnil. simpl.
    destruct (z <? 0); reflexivity. }
  repeat split.
  - apply generateImage_no_key. rewrite Hkey, Hnone. reflexivity.
  - apply generateImage_no_key. unfold initial_state. cbn [geminiApiKey].
    rewrite Hnone. reflexivity.
Qed.

(** C10, as index.js has it.  A budget of [0] is falsy, so
    [maxRetries || geminiApiKeys.length * 2] replaces it: the call is the
    call without a budget, and its budget is twice the pool size.  With a
    non-empty pool such a call sends at least one request when it starts
    below that budget ([retries] omitted, 0, or less than twice the pool
    size), and none when it starts at or above it.  A negative [maxRetries]
    is truthy and is kept: a call that starts at attempt 0 with it throws
    "Max retries reached" without a request. *)
Theorem zero_budget_is_default prompt (retries : option Z) (s : state) :
  generateImage keys net Buffer Buffer_from prompt retries (Some 0) s
  = generateImage keys net Buffer Buffer_from prompt retries None s
  ∧ budget keys (Some 0) = 2 * Z.of_nat (length keys)
  ∧ (keys_ok keys → pool_ok keys s →
     (attempts_done retries < 2 * Z.of_nat (length keys) →
      (posts (trace s)
       < posts (trace (generateImage keys net Buffer Buffer_from prompt
                                     retries (Some 0%Z) s).1))%nat)
     ∧ (2 * Z.of_nat (length keys) ≤ attempts_done retries →
        generateImage keys net Buffer Buffer_from prompt retries (Some 0) s
        = (s, Thrown MaxRetries))
     ∧ (∀ m, m < 0 →
        generateImage keys net Buffer Buffer_from prompt None (Some m) s
        = (s, Thrown MaxRetries))).
Proof.
  assert (Hb : budget keys (Some 0) = 2 * Z.of_nat (length keys))
    by (unfold budget, js_or; simpl; lia).
  split; [| split; [exact Hb |]].
  - rewrite (generateImage_equation_1 _ _ _ _ prompt retries (Some 0) s).
    rewrite (generateImage_equation_1 _ _ _ _ prompt retries None s).
    reflexivity.
  - intros Hk Hs.
    pose proof (pool_ok_truthy keys s Hk Hs) as Ht.
    split; [| split].
    + intros Hr.
      assert (Hlt : attempts_done retries < budget keys (Some 0)) by lia.
      assert (Hrec : ∀ s2, (posts (trace s) < posts (trace s2))%nat →
          (posts (trace s)
           < posts (trace (gen prompt (Some (attempts_done retries + 1)%Z)
                               (Some (budget keys (Some 0%Z))) s2).1))%nat).
      { intros s2 H2. eapply Nat.lt_le_trans; [exact H2 |].
        eapply generateImage_posts_le. reflexivity. }
      pose proof (posted_posts prompt s) as Hp.
      destruct (answer net prompt s) as [d|status message] eqn:Ha.
      * destruct (truthy d) eqn:Hd.
        -- destruct d as [d|]; [| discriminate]. simpl in Hd.
           rewrite (generateImage_image prompt retries (Some 0) s d);
             try assumption.
           ++ cbn [fst]. lia.
           ++ intros ->. discriminate.
        -- rewrite (generateImage_no_image prompt retries (Some 0) s d)
             by assumption.
           cbn [fst]. lia.
      * destruct (has_status status 429) eqn:H429.
        -- rewrite (generateImage_429 prompt retries (Some 0) s status message)
             by assumption.
           apply Hrec. rewrite after_429_posts. lia.
        -- destruct (has_status status 503) eqn:H503.
           ++ rewrite (generateImage_503 prompt retries (Some 0) s status
                         message) by assumption.
              apply Hrec. rewrite after_503_posts. lia.
           ++ rewrite (generateImage_other prompt retries (Some 0) s status
                         message) by assumption.
              cbn [fst]. lia.
    + intros Hge. apply generateImage_exhausted; [exact Ht | lia].
    + intros m Hm. apply generateImage_exhausted; [exact Ht |].
      unfold budget, attempts_done, js_or.
      destruct (Z.eqb_spec m 0); lia.
Qed.

End Retry.

(** *** The claims at concrete pools and clients *)

Lemma keys_ok_sample : keys_ok ["key-a"; "key-b"; "key-c"].
Proof. repeat constructor; discriminate. Qed.

Lemma always_rate_limited_exhausts_budget_witness :
  let keys := ["key-a"; "key-b"; "key-c"] in
  ∃ s', generateImage keys quota_client string (λ d, d) "a hat" None None
                      (initial_state keys)
        = (s', Thrown MaxRetries)
        ∧ posts (trace s') = 6%nat
        ∧ rotations (trace s') = 6%nat.
Proof.
  intros keys.
  destruct (always_rate_limited_exhausts_budget keys quota_client string
              (λ d, d) "a hat" None (initial_state keys))
    as (s' & Hrun & Hp & Hr & _).
  - exact keys_ok_sample.
  - apply initial_state_ok. discriminate.
  - intros n key. eexists. reflexivity.
  - exists s'. split; [exact Hrun | split; [exact Hp | exact Hr]].
Defined.

(** The scenario of the specification: three credentials, two 429 answers,
    then an image. *)
Lemma success_on_attempt_j_witness :
  let keys := ["key-a"; "key-b"; "key-c"] in
  ∃ s', generateImage keys third_time_client string (λ d, d) "a hat" None None
                      (initial_state keys)
        = (s', Returned "aW1hZ2U=")
        ∧ rotations (trace s') = 2%nat
        ∧ posts (trace s') = 3%nat
        ∧ currentApiKeyIndex s' = Num 2
        ∧ geminiApiKey s' = Some "key-c".
Proof.
  intros keys.
  apply (success_on_attempt_j keys third_time_client string (λ d, d)
           "a hat" 2 "aW1hZ2U=" None (initial_state keys)).
  - exact keys_ok_sample.
  - apply initial_state_ok. discriminate.
  - discriminate.
  - vm_compute. reflexivity.
  - intros i key Hi. destruct i as [|[|i]]; [eexists; reflexivity .. | lia].
  - intros key. reflexivity.
Defined.

Lemma empty_pool_no_attempt_witness :
  generateImage [] quota_client string (λ d, d) "a hat" None None
                (initial_state [])
  = (initial_state [], Thrown NoApiKey).
Proof.
  apply (empty_pool_no_attempt [] quota_client string (λ d, d) "a hat"
           None None (initial_state []) eq_refl eq_refl).
Defined.

Lemma failure_surfaces_at_once_witness :
  let keys := ["key-a"; "key-b"] in
  generateImage keys empty_first_client string (λ d, d) "a hat" None None
                (initial_state keys)
  = (posted "a hat" (initial_state keys), Thrown NoImage).
Proof.
  intros keys.
  destruct (failure_surfaces_at_once keys empty_first_client string (λ d, d)
              "a hat" None None (initial_state keys)) as (H & _).
  - reflexivity.
  - vm_compute. reflexivity.
  - apply (H None); reflexivity.
Defined.

Lemma zero_budget_is_default_witness :
  let keys := ["key-a"; "key-b"] in
  generateImage keys quota_client string (λ d, d) "a hat" None (Some 0)
                (initial_state keys)
  = generateImage keys quota_client string (λ d, d) "a hat" None None
                  (initial_state keys)
  ∧ (0 < posts (trace (generateImage keys quota_client string (λ d, d) "a hat"
                                       None (Some 0%Z) (initial_state keys)).1))%nat.
Proof.
  intros keys.
  destruct (zero_budget_is_default keys quota_client string (λ d, d) "a hat"
              None (initial_state keys)) as (H1 & _ & H2).
  split; [exact H1 |].
  destruct H2 as (H2 & _).
  - repeat constructor; discriminate.
  - apply initial_state_ok. discriminate.
  - apply H2. vm_compute. reflexivity.
Defined.

(** C10 at two keys: with [maxRetries = 0] and [retries = 5], at or above the
    default budget of 4, and with [maxRetries = -1], the call throws "Max
    retries reached" from the state it was called in, without a request,
    although the pool is not empty. *)
Lemma zero_attempt_calls :
  let keys := ["key-a"; "key-b"] in
  let s := initial_state keys in
  generateImage keys quota_client string (λ d, d) "a hat" (Some 5) (Some 0) s
  = (s, Thrown MaxRetries)
  ∧ generateImage keys quota_client string (λ d, d) "a hat" None (Some (-1)) s
    = (s, Thrown MaxRetries)
  ∧ ¬ attempt_made keys quota_client "a hat" (Some 5) (Some 0) s
  ∧ ¬ attempt_made keys quota_client "a hat" None (Some (-1)) s.
Proof.
  intros keys s.
  split; [reflexivity | split; [reflexivity |]].
  split; unfold attempt_made; vm_compute; lia.
Qed.

(** C1 at two keys and a budget of four: a first response without an image
    is not retried, although the second request would have brought one.  The
    call throws "No image returned from Gemini." after one request, where
    the retry would have returned the image. *)
Lemma empty_response_not_retried :
  let keys := ["key-a"; "key-b"] in
  let s := initial_state keys in
  answer empty_first_client "a hat" s = Response None
  ∧ generateImage keys empty_first_client string (λ d, d) "a hat" None None s
    = (posted "a hat" s, Thrown NoImage)
  ∧ (generateImage keys empty_first_client string (λ d, d) "a hat"
       (Some 1) None (sleep 1000 (getNextApiKey keys (posted "a hat" s)))).2
    = Returned "aW1hZ2U="
  ∧ ¬ retried_after_failure keys empty_first_client "a hat" None None s.
Proof.
  intros keys s.
  split; [reflexivity | split; [reflexivity | split; [reflexivity |]]].
  unfold retried_after_failure. intros H. vm_compute in H. discriminate H.
Qed.

(** ** The watermark *)

(** [Math_round] on a few values, as [Math.round] has them. *)
Lemma Math_round_examples :
  Math_round 0x1.4p+1%float = Num 3
  ∧ Math_round (- 0x1.4p+1)%float = Num (-2)
  ∧ Math_round 0x1.f4p+5%float = Num 63
  ∧ Math_round 0x1.f3fffffffffffp+5%float = Num 62
  ∧ Math_round 0x1.fffffffffffffp-2%float = Num 0
  ∧ Math_round (- 0x1p-1)%float = Num 0
  ∧ Math_round (js_number 400) = Num 400
  ∧ Math_round nan = NaN.
Proof. vm_compute. repeat split. Qed.








(** The left offset is [max(0, width - t - padding)]: when the logo and the
    padding fit in the base, the right edge of the logo is [padding] pixels
    from the right edge of the base; otherwise the offset is 0. *)
Lemma logo_left_spec (width t : Z) :
  logo_left width t = Z.max 0 (width - t - padding)
  ∧ 0 ≤ logo_left width t
  ∧ (t + padding ≤ width → width - (logo_left width t + t) = padding)
  ∧ (width < t + padding → logo_left width t = 0).
Proof. unfold logo_left, padding. repeat split; lia. Qed.

Section WatermarkFacts.

Variable sharp_metadata : list Byte.byte → outcome (Z * Z).
Variable sharp_resize : list Byte.byte → Z → Z → outcome (list Byte.byte).
Variable sharp_composite :
  list Byte.byte → Overlay.t → string → outcome (list Byte.byte).

Lemma positive_integer_inv name a z :
  positive_integer name a = Returned z → a = Num z ∧ 0 < z.
Proof.
  unfold positive_integer. destruct a as [x|]; [| discriminate].
  destruct (Z.ltb_spec 0 x); [| discriminate].
  intros [= ->]. split; [reflexivity | assumption].
Qed.

(** A call that returns went through every step. *)
Lemma applyWatermark_returned fs imagePath logoPath outputPath fs' r :
  applyWatermark sharp_metadata sharp_resize sharp_composite
    fs imagePath logoPath outputPath = (fs', Returned r) →
  ∃ image logo width height logoW logoH t h resizedLogo out,
    fs !! imagePath = Some image
    ∧ sharp_metadata image = Returned (width, height)
    ∧ fs !! logoPath = Some logo
    ∧ sharp_metadata logo = Returned (logoW, logoH)
    ∧ targetLogoWidth width = Num t ∧ 0 < t
    ∧ targetLogoHeight (Num t) logoW logoH = Num h ∧ 0 < h
    ∧ sharp_resize logo t h = Returned resizedLogo
    ∧ sharp_composite image
        (Overlay.Make resizedLogo padding (logo_left width t) "over" lit_0_7)
        outputPath = Returned out
    ∧ fs' = <[outputPath := out]> fs
    ∧ r = outputPath.
Proof.
  unfold applyWatermark, sharp_open. intros H.
  destruct (fs !! imagePath) as [image|] eqn:Eimage; [| discriminate].
  destruct (sharp_metadata image) as [[width height]|] eqn:Emeta;
    [| discriminate].
  destruct (fs !! logoPath) as [logo|] eqn:Elogo; [| discriminate].
  destruct (sharp_metadata logo) as [[logoW logoH]|] eqn:Elmeta;
    [| discriminate].
  destruct (positive_integer "width" _) as [t|] eqn:Et; [| discriminate].
  destruct (positive_integer "height" _) as [h|] eqn:Eh; [| discriminate].
  destruct (sharp_resize logo t h) as [resizedLogo|] eqn:Eresize;
    [| discriminate].
  destruct (sharp_composite image _ outputPath) as [out|] eqn:Eout;
    [| discriminate].
  apply positive_integer_inv in Et as [Et Htpos].
  apply positive_integer_inv in Eh as [Eh Hhpos]. rewrite Et in Eh.
  injection H as <- <-.
  exists image, logo, width, height, logoW, logoH, t, h, resizedLogo, out.
  repeat split; assumption.
Qed.

(** C7.  When [applyWatermark] returns, what it wrote is the composite of
    the base image with one overlay, the resized logo at [top = padding] and
    [left = max(0, W - t - padding)], for the base width [W] and the target
    logo width [t]: with [t + padding ≤ W] the right edge of the [t] wide
    logo is exactly [padding] pixels from the right edge of the base and its
    top edge [padding] pixels from the top; with [W < t + padding] the left
    offset is 0, not negative. *)
Theorem applyWatermark_placement fs imagePath logoPath outputPath fs' r :
  applyWatermark sharp_metadata sharp_resize sharp_composite
    fs imagePath logoPath outputPath = (fs', Returned r) →
  ∃ image logo width height logoW logoH t h resizedLogo out,
    fs !! imagePath = Some image
    ∧ sharp_metadata image = Returned (width, height)
    ∧ fs !! logoPath = Some logo
    ∧ sharp_metadata logo = Returned (logoW, logoH)
    ∧ targetLogoWidth width = Num t
    ∧ targetLogoHeight (Num t) logoW logoH = Num h
    ∧ sharp_resize logo t h = Returned resizedLogo
    ∧ sharp_composite image
        (Overlay.Make resizedLogo padding (Z.max 0 (width - t - padding))
                      "over" lit_0_7)
        outputPath = Returned out
    ∧ fs' !! outputPath = Some out
    ∧ (t + padding ≤ width →
       width - (Z.max 0 (width - t - padding) + t) = padding)
    ∧ (width < t + padding → Z.max 0 (width - t - padding) = 0).
Proof.
  intros H. apply applyWatermark_returned in H
    as (image & logo & width & height & logoW & logoH & t & h & resizedLogo
        & out & Himage & Hmeta & Hlogo & Hlmeta & Ht & _ & Hh & _ & Hresize
        & Hout & -> & _).
  exists image, logo, width, height, logoW, logoH, t, h, resizedLogo, out.
  destruct (logo_left_spec width t) as (Hl & _ & Hfit & Hclamp).
  rewrite Hl in Hfit, Hclamp. unfold logo_left in Hout.
  repeat split; try assumption.
  apply lookup_insert_eq.
Qed.

End WatermarkFacts.

Lemma applyWatermark_placement_witness :
  ∃ out,
    sample_composite [Byte.x01]
      (Overlay.Make [Byte.x02] 10 (1000 - 100 - 10) "over" lit_0_7)
      "watermarked.png" = Returned out
    ∧ 1000 - ((1000 - 100 - 10) + 100) = 10.
Proof.
  destruct (applyWatermark_placement sample_metadata sample_resize
              sample_composite (sample_files []) "generated.png"
              "watermark_logo.png" "watermarked.png"
              (<["watermarked.png" := [Byte.x01; Byte.x02]]> (sample_files []))
              "watermarked.png")
    as (image & logo & width & height & logoW & logoH & t & h & resizedLogo
        & out & Himage & Hmeta & Hlogo & _ & Ht & _ & Hresize & Hout & _).
  - vm_compute. reflexivity.
  - exists out. split; [| reflexivity].
    vm_compute in Himage. injection Himage as <-.
    vm_compute in Hmeta. injection Hmeta as <- <-.
    vm_compute in Hlogo. injection Hlogo as <-.
    vm_compute in Ht. injection Ht as <-.
    injection Hresize as <-. exact Hout.
Defined.

(** ** The gallery *)

Global Instance id_desc_total : Total id_desc.
Proof. intros a b. unfold id_desc. lia. Qed.

Global Instance id_desc_trans : Transitive id_desc.
Proof. intros a b c. unfold id_desc. lia. Qed.

(** C9 at two stored items of one user: page 1 lists both, and the total
    is 2, not the one distinct username. *)
Lemma gallery_lists_duplicates :
  let first := GalleryItem.Make 1 "ada" "gm" "https://img/1.png" in
  let second := GalleryItem.Make 2 "ada" "wagmi" "https://img/2.png" in
  gallery [first; second] (Num 1) = Json 2 [second; first]
  ∧ ¬ deduplicated_listing [first; second] (gallery [first; second] (Num 1)).
Proof.
  intros first second. split; [reflexivity |].
  intros (total & items & H & _ & _ & Htotal).
  vm_compute in H. injection H as <- <-.
  vm_compute in Htotal. discriminate Htotal.
Qed.

Lemma StronglySorted_window {A} (R : relation A) (l : list A) (skip limit : nat) :
  StronglySorted R l → StronglySorted R (take limit (drop skip l)).
Proof.
  intros H. rewrite <- (take_drop skip l) in H.
  apply StronglySorted_app_1_r in H.
  rewrite <- (take_drop limit (drop skip l)) in H.
  apply StronglySorted_app_1_l in H. exact H.
Qed.

(** C9, as index.js has it.  For a page number [N ≥ 1] (a missing,
    unparsable or zero page counts as 1) the route answers with the total
    number of stored items, and with the items ranked [10 (N-1) + 1 .. 10 N]
    among all stored items by descending [id]: at most ten, sorted by [id]
    descending, each a stored item.  Nothing is grouped by username. *)
Theorem gallery_page (docs : list GalleryItem.t) (parsedPage : jsnum) :
  let page := match parsedPage with
              | Num z => if z =? 0 then 1 else z
              | NaN => 1
              end in
  1 ≤ page →
  ∃ items,
    gallery docs parsedPage = Json (Z.of_nat (length docs)) items
    ∧ items = take 10 (drop (Z.to_nat (10 * (page - 1)))
                            (merge_sort id_desc docs))
    ∧ merge_sort id_desc docs ≡ₚ docs
    ∧ StronglySorted id_desc (merge_sort id_desc docs)
    ∧ StronglySorted id_desc items
    ∧ (length items ≤ 10)%nat
    ∧ items ⊆ docs.
Proof.
  intros page Hpage.
  exists (take 10 (drop (Z.to_nat (10 * (page - 1))) (merge_sort id_desc docs))).
  assert (Hsorted : StronglySorted id_desc (merge_sort id_desc docs))
    by apply (StronglySorted_merge_sort id_desc).
  assert (Hperm : merge_sort id_desc docs ≡ₚ docs)
    by apply merge_sort_Permutation.
  repeat split.
  - unfold gallery, find_sort_skip_limit. fold page.
    destruct (Z.ltb_spec ((page - 1) * 10) 0); [lia |].
    replace ((page - 1) * 10) with (10 * (page - 1)) by lia. reflexivity.
  - exact Hperm.
  - exact Hsorted.
  - apply StronglySorted_window, Hsorted.
  - rewrite length_take. lia.
  - etransitivity; [apply subseteq_take |].
    etransitivity; [apply subseteq_drop |].
    intros x Hx. rewrite <- Hperm. exact Hx.
Qed.

Lemma gallery_page_witness :
  let first := GalleryItem.Make 1 "ada" "gm" "https://img/1.png" in
  let second := GalleryItem.Make 2 "ada" "wagmi" "https://img/2.png" in
  ∃ items, gallery [first; second] NaN = Json 2 items
           ∧ StronglySorted id_desc items.
Proof.
  intros first second.
  destruct (gallery_page [first; second] NaN)
    as (items & H & _ & _ & _ & Hs & _).
  - simpl. lia.
  - exists items. split; [exact H | exact Hs].
Defined.

(** ** Every call of generateImage, whatever the client answers *)

Lemma posts_app_list t1 t2 : posts (t1 ++ t2) = (posts t1 + posts t2)%nat.
Proof. unfold posts. rewrite filter_app, length_app. reflexivity. Qed.

Lemma rotations_app_list t1 t2 :
  rotations (t1 ++ t2) = (rotations t1 + rotations t2)%nat.
Proof. unfold rotations. rewrite filter_app, length_app. reflexivity. Qed.

Lemma waited_app t1 t2 : waited (t1 ++ t2) = waited t1 + waited t2.
Proof.
  unfold waited. induction t1 as [|e t1 IH]; [reflexivity |].
  simpl. destruct e; rewrite IH; lia.
Qed.

Lemma posted_keys_app t1 t2 :
  posted_keys (t1 ++ t2) = (posted_keys t1 ++ posted_keys t2)%list.
Proof. unfold posted_keys. apply omap_app. Qed.

Section EveryCall.

Variable keys : list string.
Variable net : nat → option string → string → axios_result.
Variable Buffer : Type.
Variable Buffer_from : string → Buffer.

Local Abbreviation gen := (generateImage keys net Buffer Buffer_from).

(** Induction over the attempts of a call: a property of every call follows
    from the five ways a call ends and the two ways it goes on. *)
Lemma generateImage_attempts_ind (prompt : string)
    (P : option Z → option Z → state → state * outcome Buffer → Prop) :
  (∀ r m s, truthy (geminiApiKey s) = false → P r m s (s, Thrown NoApiKey)) →
  (∀ r m s, truthy (geminiApiKey s) = true →
     budget keys m ≤ attempts_done r → P r m s (s, Thrown MaxRetries)) →
  (∀ r m s d, truthy (geminiApiKey s) = true →
     attempts_done r < budget keys m →
     answer net prompt s = Response (Some d) → d ≠ "" →
     P r m s (posted prompt s, Returned (Buffer_from d))) →
  (∀ r m s d, truthy (geminiApiKey s) = true →
     attempts_done r < budget keys m →
     answer net prompt s = Response d → truthy d = false →
     P r m s (posted prompt s, Thrown NoImage)) →
  (∀ r m s status message, truthy (geminiApiKey s) = true →
     attempts_done r < budget keys m →
     answer net prompt s = Rejected status message →
     has_status status 429 = false → has_status status 503 = false →
     P r m s (posted prompt s, Thrown (AxiosError status message))) →
  (∀ r m s status message, truthy (geminiApiKey s) = true →
     attempts_done r < budget keys m →
     answer net prompt s = Rejected status message →
     has_status status 429 = true →
     P (Some (attempts_done r + 1)) (Some (budget keys m)) (after_429 keys prompt s)
       (gen prompt (Some (attempts_done r + 1)) (Some (budget keys m))
            (after_429 keys prompt s)) →
     P r m s (gen prompt (Some (attempts_done r + 1)) (Some (budget keys m))
                  (after_429 keys prompt s))) →
  (∀ r m s status message, truthy (geminiApiKey s) = true →
     attempts_done r < budget keys m →
     answer net prompt s = Rejected status message →
     has_status status 429 = false → has_status status 503 = true →
     P (Some (attempts_done r + 1)) (Some (budget keys m)) (after_503 keys prompt s)
       (gen prompt (Some (attempts_done r + 1)) (Some (budget keys m))
            (after_503 keys prompt s)) →
     P r m s (gen prompt (Some (attempts_done r + 1)) (Some (budget keys m))
                  (after_503 keys prompt s))) →
  ∀ r m s, P r m s (gen prompt r m s).
Proof.
  intros Hnokey Hmax Himage Hnoimage Hother H429 H503 r m s.
  remember (Z.to_nat (budget keys m - attempts_done r)) as n eqn:Hn.
  revert r m s Hn.
  induction n as [n IH] using lt_wf_ind. intros r m s Hn.
  destruct (truthy (geminiApiKey s)) eqn:Ht;
    [| rewrite generateImage_no_key by assumption; apply Hnokey, Ht].
  destruct (Z_lt_dec (attempts_done r) (budget keys m)) as [Hlt|Hge];
    [| rewrite generateImage_exhausted by (assumption || lia);
       apply Hmax; (assumption || lia)].
  assert (Hnext : ∀ s2,
    P (Some (attempts_done r + 1)) (Some (budget keys m)) s2
      (gen prompt (Some (attempts_done r + 1)) (Some (budget keys m)) s2)).
  { intros s2.
    apply (IH (Z.to_nat (budget keys (Some (budget keys m))
                         - attempts_done (Some (attempts_done r + 1)))));
      [| reflexivity].
    rewrite budget_again, attempts_done_succ. lia. }
  destruct (answer net prompt s) as [d|status message] eqn:Ha.
  - destruct (truthy d) eqn:Hd.
    + destruct d as [d|]; [| discriminate]. simpl in Hd.
      assert (d ≠ "") by (intros ->; discriminate).
      rewrite (generateImage_image _ _ _ _ prompt r m s d) by assumption.
      apply Himage; assumption.
    + rewrite (generateImage_no_image _ _ _ _ prompt r m s d) by assumption.
      apply Hnoimage with d; assumption.
  - destruct (has_status status 429) eqn:E429.
    + rewrite (generateImage_429 _ _ _ _ prompt r m s status message)
        by assumption.
      apply (H429 r m s status message); try assumption. apply Hnext.
    + destruct (has_status status 503) eqn:E503.
      * rewrite (generateImage_503 _ _ _ _ prompt r m s status message)
          by assumption.
        apply (H503 r m s status message); try assumption. apply Hnext.
      * rewrite (generateImage_other _ _ _ _ prompt r m s status message)
          by assumption.
        apply Hother; assumption.
Qed.

Lemma after_429_trace prompt s :
  trace (after_429 keys prompt s)
  = (trace s ++ [Posted (geminiApiKey s) prompt; Rotated; Slept 1000])%list.
Proof. unfold after_429. simpl. rewrite <- !app_assoc. reflexivity. Qed.

Lemma after_503_trace prompt s :
  trace (after_503 keys prompt s)
  = (trace s ++ [Posted (geminiApiKey s) prompt; Slept 5000; Rotated])%list.
Proof. unfold after_503. simpl. rewrite <- !app_assoc. reflexivity. Qed.

Lemma no_event_counts : posts [] = 0%nat ∧ rotations [] = 0%nat ∧ waited [] = 0.
Proof. repeat split; reflexivity. Qed.

Lemma round_429_counts key prompt :
  posts [Posted key prompt; Rotated; Slept 1000] = 1%nat
  ∧ rotations [Posted key prompt; Rotated; Slept 1000] = 1%nat
  ∧ waited [Posted key prompt; Rotated; Slept 1000] = 1000.
Proof. repeat split; reflexivity. Qed.

Lemma round_503_counts key prompt :
  posts [Posted key prompt; Slept 5000; Rotated] = 1%nat
  ∧ rotations [Posted key prompt; Slept 5000; Rotated] = 1%nat
  ∧ waited [Posted key prompt; Slept 5000; Rotated] = 5000.
Proof. repeat split; reflexivity. Qed.

Lemma last_post_counts key prompt :
  posts [Posted key prompt] = 1%nat
  ∧ rotations [Posted key prompt] = 0%nat
  ∧ waited [Posted key prompt] = 0.
Proof. repeat split; reflexivity. Qed.

Lemma attempts_left_succ r m :
  attempts_done r < budget keys m →
  S (Z.to_nat (budget keys (Some (budget keys m))
               - attempts_done (Some (attempts_done r + 1))))
  = Z.to_nat (budget keys m - attempts_done r).
Proof. intros H. rewrite budget_again, attempts_done_succ. lia. Qed.

(** What a call adds to the trace: at most as many requests as attempts are
    left, a rotation for each request but possibly the last, and between one
    and five seconds of waiting for each rotation. *)
Lemma call_summary prompt r m s :
  ∃ t, trace (gen prompt r m s).1 = (trace s ++ t)%list
       ∧ (posts t ≤ Z.to_nat (budget keys m - attempts_done r))%nat
       ∧ (rotations t ≤ posts t ≤ S (rotations t))%nat
       ∧ 1000 * Z.of_nat (rotations t) ≤ waited t ≤ 5000 * Z.of_nat (rotations t).
Proof.
  revert r m s.
  apply (generateImage_attempts_ind prompt
    (λ r m s res,
       ∃ t, trace res.1 = (trace s ++ t)%list
            ∧ (posts t ≤ Z.to_nat (budget keys m - attempts_done r))%nat
            ∧ (rotations t ≤ posts t ≤ S (rotations t))%nat
            ∧ 1000 * Z.of_nat (rotations t) ≤ waited t
              ≤ 5000 * Z.of_nat (rotations t))).
  - intros r m s _. exists []. rewrite app_nil_r.
    destruct no_event_counts as (-> & -> & ->).
    repeat split; (reflexivity || lia).
  - intros r m s _ _. exists []. rewrite app_nil_r.
    destruct no_event_counts as (-> & -> & ->).
    repeat split; (reflexivity || lia).
  - intros r m s d _ Hlt _ _. exists [Posted (geminiApiKey s) prompt].
    destruct (last_post_counts (geminiApiKey s) prompt) as (-> & -> & ->).
    repeat split; (reflexivity || lia).
  - intros r m s d _ Hlt _ _. exists [Posted (geminiApiKey s) prompt].
    destruct (last_post_counts (geminiApiKey s) prompt) as (-> & -> & ->).
    repeat split; (reflexivity || lia).
  - intros r m s status message _ Hlt _ _ _.
    exists [Posted (geminiApiKey s) prompt].
    destruct (last_post_counts (geminiApiKey s) prompt) as (-> & -> & ->).
    repeat split; (reflexivity || lia).
  - intros r m s status message _ Hlt _ _ (t & Ht & Hp & Hr & Hw).
    exists ([Posted (geminiApiKey s) prompt; Rotated; Slept 1000] ++ t)%list.
    rewrite Ht, after_429_trace, <- app_assoc.
    rewrite posts_app_list, rotations_app_list, waited_app.
    pose proof (attempts_left_succ r m Hlt).
    destruct (round_429_counts (geminiApiKey s) prompt) as (-> & -> & ->).
    repeat split; lia.
  - intros r m s status message _ Hlt _ _ _ (t & Ht & Hp & Hr & Hw).
    exists ([Posted (geminiApiKey s) prompt; Slept 5000; Rotated] ++ t)%list.
    rewrite Ht, after_503_trace, <- app_assoc.
    rewrite posts_app_list, rotations_app_list, waited_app.
    pose proof (attempts_left_succ r m Hlt).
    destruct (round_503_counts (geminiApiKey s) prompt) as (-> & -> & ->).
    repeat split; lia.
Qed.


Lemma posted_ok prompt s : pool_ok keys s → pool_ok keys (posted prompt s).
Proof. intros H. exact H. Qed.

Lemma after_503_ok prompt s : pool_ok keys s → pool_ok keys (after_503 keys prompt s).
Proof.
  intros H. apply (getNextApiKey_ok keys (sleep 5000 (posted prompt s))). exact H.
Qed.

Lemma call_keeps_pool prompt r m s :
  pool_ok keys s → pool_ok keys (gen prompt r m s).1.
Proof.
  revert r m s.
  apply (generateImage_attempts_ind prompt
           (λ r m s res, pool_ok keys s → pool_ok keys res.1));
    try (intros; assumption).
  - intros r m s status message _ _ _ _ IH Hs.
    apply IH. apply (after_429_ok keys prompt s Hs).
  - intros r m s status message _ _ _ _ _ IH Hs.
    apply IH. apply after_503_ok, Hs.
Qed.

(** X2.  [generateImage] keeps the pool variables in step with the array:
    if the index is a position of [geminiApiKeys] and [geminiApiKey] is the
    key there before a call, the same holds after it, however the call ends;
    so the next call starts from a key of the pool. *)
Theorem generateImage_keeps_pool_ok prompt (retries maxRetries : option Z)
    (s : state) :
  pool_ok keys s →
  pool_ok keys (generateImage keys net Buffer Buffer_from prompt retries
                              maxRetries s).1
  ∧ (keys_ok keys →
     truthy (geminiApiKey (generateImage keys net Buffer Buffer_from prompt
                                         retries maxRetries s).1) = true).
Proof.
  intros Hs. pose proof (call_keeps_pool prompt retries maxRetries s Hs) as H.
  split; [exact H |]. intros Hk. apply (pool_ok_truthy keys); assumption.
Qed.

Lemma call_throws prompt r m s :
  keys_ok keys → pool_ok keys s →
  ∀ e, (gen prompt r m s).2 = Thrown e →
    e = MaxRetries ∨ e = NoImage
    ∨ ∃ status message, e = AxiosError status message
        ∧ has_status status 429 = false ∧ has_status status 503 = false.
Proof.
  intros Hk. revert r m s.
  apply (generateImage_attempts_ind prompt
    (λ r m s res, pool_ok keys s →
       ∀ e, res.2 = Thrown e →
         e = MaxRetries ∨ e = NoImage
         ∨ ∃ status message, e = AxiosError status message
             ∧ has_status status 429 = false ∧ has_status status 503 = false)).
  - intros r m s Hf Hs. rewrite (pool_ok_truthy keys s Hk Hs) in Hf. discriminate.
  - intros r m s _ _ _ e [= <-]. left. reflexivity.
  - intros r m s d _ _ _ _ _ e [=].
  - intros r m s d _ _ _ _ _ e [= <-]. right. left. reflexivity.
  - intros r m s status message _ _ _ H4 H5 _ e [= <-]. right. right.
    exists status, message. repeat split; assumption.
  - intros r m s status message _ _ _ _ IH Hs. apply IH.
    apply (after_429_ok keys prompt s Hs).
  - intros r m s status message _ _ _ _ _ IH Hs. apply IH.
    apply after_503_ok, Hs.
Qed.

(** X3.  From a pool that is in step with a non-empty array, a call of
    [generateImage] throws only "Max retries reached", "No image returned
    from Gemini." or the error of a request whose status is neither 429 nor
    503: a 429 or a 503 of the endpoint never reaches the caller, and "No
    API key available." is not thrown. *)
Theorem generateImage_thrown_errors prompt (retries maxRetries : option Z)
    (s : state) (e : error) :
  keys_ok keys → pool_ok keys s →
  (generateImage keys net Buffer Buffer_from prompt retries maxRetries s).2
  = Thrown e →
  e ≠ NoApiKey
  ∧ (e = MaxRetries ∨ e = NoImage
     ∨ ∃ status message, e = AxiosError status message
         ∧ status ≠ Some 429 ∧ status ≠ Some 503).
Proof.
  intros Hk Hs He.
  destruct (call_throws prompt retries maxRetries s Hk Hs e He)
    as [-> | [-> | (status & message & -> & H4 & H5)]].
  - split; [discriminate | left; reflexivity].
  - split; [discriminate | right; left; reflexivity].
  - split; [discriminate |]. right. right. exists status, message.
    split; [reflexivity |].
    split; intros ->; discriminate.
Qed.

Lemma call_returns prompt r m s :
  ∀ b, (gen prompt r m s).2 = Returned b →
    ∃ d t, d ≠ "" ∧ b = Buffer_from d
      ∧ trace (gen prompt r m s).1
        = (trace s ++ t
           ++ [Posted (geminiApiKey (gen prompt r m s).1) prompt])%list
      ∧ posts t = rotations t
      ∧ net (posts (trace s ++ t)) (geminiApiKey (gen prompt r m s).1) prompt
        = Response (Some d).
Proof.
  revert r m s.
  apply (generateImage_attempts_ind prompt
    (λ r m s res,
       ∀ b, res.2 = Returned b →
         ∃ d t, d ≠ "" ∧ b = Buffer_from d
           ∧ trace res.1
             = (trace s ++ t ++ [Posted (geminiApiKey res.1) prompt])%list
           ∧ posts t = rotations t
           ∧ net (posts (trace s ++ t)) (geminiApiKey res.1) prompt
             = Response (Some d))); try (intros; discriminate).
  - intros r m s d _ _ Ha Hd b [= <-]. exists d, [].
    rewrite app_nil_r. repeat split; try assumption; reflexivity.
  - intros r m s status message _ _ _ _ IH b Hb.
    destruct (IH b Hb) as (d & t & Hd & -> & Ht & Hc & Hn).
    exists d, ([Posted (geminiApiKey s) prompt; Rotated; Slept 1000] ++ t)%list.
    rewrite after_429_trace in Ht, Hn. rewrite <- !app_assoc in Ht, Hn.
    rewrite posts_app_list, rotations_app_list.
    destruct (round_429_counts (geminiApiKey s) prompt) as (-> & -> & _).
    rewrite <- !app_assoc.
    repeat split; try assumption; try reflexivity. lia.
  - intros r m s status message _ _ _ _ _ IH b Hb.
    destruct (IH b Hb) as (d & t & Hd & -> & Ht & Hc & Hn).
    exists d, ([Posted (geminiApiKey s) prompt; Slept 5000; Rotated] ++ t)%list.
    rewrite after_503_trace in Ht, Hn. rewrite <- !app_assoc in Ht, Hn.
    rewrite posts_app_list, rotations_app_list.
    destruct (round_503_counts (geminiApiKey s) prompt) as (-> & -> & _).
    rewrite <- !app_assoc.
    repeat split; try assumption; try reflexivity. lia.
Qed.

(** X4.  When [generateImage] returns, the bytes decode the payload of the
    last request of the call, that request carried the key that is in use
    after the call, and every earlier request of the call was followed by a
    rotation: the pool stays on the key that worked. *)
Theorem generateImage_returns_last_answer prompt (retries maxRetries : option Z)
    (s : state) (b : Buffer) :
  let res := generateImage keys net Buffer Buffer_from prompt retries
                           maxRetries s in
  res.2 = Returned b →
  ∃ d, d ≠ "" ∧ b = Buffer_from d
       ∧ last (trace res.1) = Some (Posted (geminiApiKey res.1) prompt)
       ∧ net (posts (trace res.1) - 1)%nat (geminiApiKey res.1) prompt
         = Response (Some d)
       ∧ (posts (trace res.1) - posts (trace s))%nat
         = S (rotations (trace res.1) - rotations (trace s)).
Proof.
  intros res Hb.
  destruct (call_returns prompt retries maxRetries s b Hb)
    as (d & t & Hd & -> & Ht & Hc & Hn).
  exists d. fold res in Ht, Hn. rewrite Ht.
  split; [exact Hd | split; [reflexivity |]].
  rewrite !app_assoc, last_snoc, posts_app_list, rotations_app_list.
  rewrite posts_app_list, rotations_app_list in *.
  destruct (last_post_counts (geminiApiKey res.1) prompt) as (-> & -> & _).
  split; [reflexivity | split].
  - replace (posts (trace s) + posts t + 1 - 1)%nat
      with (posts (trace s) + posts t)%nat by lia.
    exact Hn.
  - lia.
Qed.

(** The key at position [(i + n) mod k] of the array. *)
Definition key_in_turn (i : Z) (n : nat) : option string :=
  keys !! Z.to_nat ((i + Z.of_nat n) mod Z.of_nat (length keys)).

Lemma key_in_turn_next i n :
  0 < Z.of_nat (length keys) →
  key_in_turn ((i + 1) mod Z.of_nat (length keys)) n = key_in_turn i (S n).
Proof.
  intros Hlen. unfold key_in_turn. rewrite Zplus_mod_idemp_l.
  do 3 f_equal. lia.
Qed.

Lemma rotated_index prompt s s2 i :
  currentApiKeyIndex s = Num i → 0 ≤ i < Z.of_nat (length keys) →
  s2 = after_429 keys prompt s ∨ s2 = after_503 keys prompt s →
  currentApiKeyIndex s2 = Num ((i + 1) mod Z.of_nat (length keys))
  ∧ 0 ≤ (i + 1) mod Z.of_nat (length keys) < Z.of_nat (length keys)
  ∧ geminiApiKey s2
    = keys !! Z.to_nat ((i + 1) mod Z.of_nat (length keys)).
Proof.
  intros Hi Hr Hs2.
  assert (Hb : 0 ≤ (i + 1) mod Z.of_nat (length keys) < Z.of_nat (length keys))
    by (apply Z.mod_pos_bound; lia).
  assert (H : currentApiKeyIndex s2 = Num ((i + 1) mod Z.of_nat (length keys))
              ∧ geminiApiKey s2 = js_get keys (currentApiKeyIndex s2)).
  { destruct Hs2 as [-> | ->].
    - unfold after_429. cbn [sleep record currentApiKeyIndex geminiApiKey].
      split; [| apply getNextApiKey_key].
      apply getNextApiKey_index; [exact Hi | lia | lia].
    - unfold after_503. split; [| apply getNextApiKey_key].
      apply getNextApiKey_index; [exact Hi | lia | lia]. }
  destruct H as [H1 H2]. split; [exact H1 | split; [exact Hb |]].
  rewrite H2, H1. apply js_get_in_range. lia.
Qed.

Lemma call_round_robin prompt r m s :
  ∀ i, currentApiKeyIndex s = Num i → 0 ≤ i < Z.of_nat (length keys) →
    geminiApiKey s = keys !! Z.to_nat i →
    ∃ t, trace (gen prompt r m s).1 = (trace s ++ t)%list
         ∧ posted_keys t = key_in_turn i <$> seq 0 (posts t)
         ∧ currentApiKeyIndex (gen prompt r m s).1
           = Num ((i + Z.of_nat (rotations t)) mod Z.of_nat (length keys)).
Proof.
  revert r m s.
  apply (generateImage_attempts_ind prompt
    (λ r m s res,
       ∀ i, currentApiKeyIndex s = Num i → 0 ≤ i < Z.of_nat (length keys) →
         geminiApiKey s = keys !! Z.to_nat i →
         ∃ t, trace res.1 = (trace s ++ t)%list
              ∧ posted_keys t = key_in_turn i <$> seq 0 (posts t)
              ∧ currentApiKeyIndex res.1
                = Num ((i + Z.of_nat (rotations t))
                       mod Z.of_nat (length keys)))).
  1, 2: intros; exists []; rewrite app_nil_r;
    destruct no_event_counts as (-> & -> & _);
    rewrite Z.add_0_r, Z.mod_small by lia;
    repeat split; (reflexivity || assumption).
  1, 2, 3: intros; exists [Posted (geminiApiKey s) prompt];
    destruct (last_post_counts (geminiApiKey s) prompt) as (-> & -> & _);
    rewrite Z.add_0_r, Z.mod_small by lia;
    (split; [reflexivity | split; [| assumption]]);
    cbn; unfold key_in_turn; rewrite Z.add_0_r, Z.mod_small by lia;
    congruence.
  - intros r m s status message _ _ _ _ IH i Hi Hr Hkey.
    destruct (rotated_index prompt s (after_429 keys prompt s) i Hi Hr)
      as (Hi2 & Hr2 & Hkey2); [left; reflexivity |].
    destruct (IH _ Hi2 Hr2 Hkey2) as (t & Ht & Hp & Hx).
    exists ([Posted (geminiApiKey s) prompt; Rotated; Slept 1000] ++ t)%list.
    rewrite Ht, after_429_trace, <- app_assoc.
    rewrite posts_app_list, rotations_app_list, posted_keys_app.
    destruct (round_429_counts (geminiApiKey s) prompt) as (-> & -> & _).
    split; [reflexivity | split].
    + cbn [Nat.add seq fmap list_fmap]. rewrite <- fmap_S_seq, <- list_fmap_compose.
      rewrite Hp. cbn. f_equal.
      * unfold key_in_turn. rewrite Z.add_0_r, Z.mod_small by lia. exact Hkey.
      * apply list_fmap_ext. intros _ n _. apply key_in_turn_next. lia.
    + rewrite Hx, Zplus_mod_idemp_l. do 2 f_equal. lia.
  - intros r m s status message _ _ _ _ _ IH i Hi Hr Hkey.
    destruct (rotated_index prompt s (after_503 keys prompt s) i Hi Hr)
      as (Hi2 & Hr2 & Hkey2); [right; reflexivity |].
    destruct (IH _ Hi2 Hr2 Hkey2) as (t & Ht & Hp & Hx).
    exists ([Posted (geminiApiKey s) prompt; Slept 5000; Rotated] ++ t)%list.
    rewrite Ht, after_503_trace, <- app_assoc.
    rewrite posts_app_list, rotations_app_list, posted_keys_app.
    destruct (round_503_counts (geminiApiKey s) prompt) as (-> & -> & _).
    split; [reflexivity | split].
    + cbn [Nat.add seq fmap list_fmap]. rewrite <- fmap_S_seq, <- list_fmap_compose.
      rewrite Hp. cbn. f_equal.
      * unfold key_in_turn. rewrite Z.add_0_r, Z.mod_small by lia. exact Hkey.
      * apply list_fmap_ext. intros _ n _. apply key_in_turn_next. lia.
    + rewrite Hx, Zplus_mod_idemp_l. do 2 f_equal. lia.
Qed.

(** X5.  The requests of a call go through the keys in the order of the
    array, wrapping around: starting from position [i], the [n]-th request of
    the call carries the key at position [(i + n) mod k], whatever the client
    answers, and the call leaves the index at [(i + rotations) mod k]. *)
Theorem generateImage_round_robin prompt (retries maxRetries : option Z)
    (s : state) (i : Z) :
  currentApiKeyIndex s = Num i → 0 ≤ i < Z.of_nat (length keys) →
  geminiApiKey s = keys !! Z.to_nat i →
  let s' := (generateImage keys net Buffer Buffer_from prompt retries
                           maxRetries s).1 in
  let t := drop (length (trace s)) (trace s') in
  trace s' = (trace s ++ t)%list
  ∧ posted_keys t
    = (λ n, keys !! Z.to_nat ((i + Z.of_nat n) mod Z.of_nat (length keys)))
      <$> seq 0 (posts t)
  ∧ currentApiKeyIndex s'
    = Num ((i + Z.of_nat (rotations t)) mod Z.of_nat (length keys)).
Proof.
  intros Hi Hr Hkey s' t.
  destruct (call_round_robin prompt retries maxRetries s i Hi Hr Hkey)
    as (t' & Ht & Hp & Hx).
  assert (t = t') as -> by (unfold t, s'; rewrite Ht; apply drop_app_length).
  split; [exact Ht | split; [exact Hp | exact Hx]].
Qed.

Lemma retryable_run prompt r m s :
  keys_ok keys → always_retryable net prompt → pool_ok keys s →
  (gen prompt r m s).2 = Thrown MaxRetries
  ∧ ∃ t, trace (gen prompt r m s).1 = (trace s ++ t)%list
         ∧ posts t = Z.to_nat (budget keys m - attempts_done r)
         ∧ rotations t = posts t
         ∧ ((∀ n key status message,
               net n key prompt = Rejected status message →
               has_status status 429 = false) →
            waited t = 5000 * Z.of_nat (posts t)).
Proof.
  intros Hk Hnet. revert r m s.
  apply (generateImage_attempts_ind prompt
    (λ r m s res, pool_ok keys s →
       res.2 = Thrown MaxRetries
       ∧ ∃ t, trace res.1 = (trace s ++ t)%list
              ∧ posts t = Z.to_nat (budget keys m - attempts_done r)
              ∧ rotations t = posts t
              ∧ ((∀ n key status message,
                    net n key prompt = Rejected status message →
                    has_status status 429 = false) →
                 waited t = 5000 * Z.of_nat (posts t)))).
  - intros r m s Hf Hs. rewrite (pool_ok_truthy keys s Hk Hs) in Hf. discriminate.
  - intros r m s _ Hge _. split; [reflexivity |]. exists [].
    rewrite app_nil_r. destruct no_event_counts as (-> & -> & ->).
    repeat split; (reflexivity || lia).
  - intros r m s d _ _ Ha _ _. unfold answer in Ha.
    destruct (Hnet (posts (trace s)) (geminiApiKey s))
      as (status & message & Hm & _). congruence.
  - intros r m s d _ _ Ha _ _. unfold answer in Ha.
    destruct (Hnet (posts (trace s)) (geminiApiKey s))
      as (status & message & Hm & _). congruence.
  - intros r m s status message _ _ Ha H4 H5 _. unfold answer in Ha.
    destruct (Hnet (posts (trace s)) (geminiApiKey s))
      as (status' & message' & Hm & Hst).
    rewrite Ha in Hm. injection Hm as <- <-. destruct Hst; congruence.
  - intros r m s status message _ Hlt Ha H4 IH Hs.
    destruct (IH (after_429_ok keys prompt s Hs))
      as (Hres & t & Ht & Hp & Hrot & Hw).
    split; [exact Hres |].
    exists ([Posted (geminiApiKey s) prompt; Rotated; Slept 1000] ++ t)%list.
    rewrite Ht, after_429_trace, <- app_assoc.
    rewrite posts_app_list, rotations_app_list, waited_app.
    destruct (round_429_counts (geminiApiKey s) prompt) as (-> & -> & ->).
    pose proof (attempts_left_succ r m Hlt).
    repeat split; try lia.
    intros Hno. unfold answer in Ha. apply Hno in Ha. congruence.
  - intros r m s status message _ Hlt Ha H4 H5 IH Hs.
    destruct (IH (after_503_ok prompt s Hs))
      as (Hres & t & Ht & Hp & Hrot & Hw).
    split; [exact Hres |].
    exists ([Posted (geminiApiKey s) prompt; Slept 5000; Rotated] ++ t)%list.
    rewrite Ht, after_503_trace, <- app_assoc.
    rewrite posts_app_list, rotations_app_list, waited_app.
    destruct (round_503_counts (geminiApiKey s) prompt) as (-> & -> & ->).
    pose proof (attempts_left_succ r m Hlt).
    repeat split; try lia.
    intros Hno. specialize (Hw Hno). lia.
Qed.

(** X6.  With a non-empty pool and a client that answers every request with
    a 429 or a 503, a call without arguments sends exactly
    [2 * geminiApiKeys.length] requests, rotates after each of them and
    throws "Max retries reached", after waiting between one and five seconds
    per request; when no answer is a 429, it has waited
    [10 * geminiApiKeys.length] seconds. *)
Theorem unavailable_exhausts_budget prompt (s : state) :
  keys_ok keys → pool_ok keys s → always_retryable net prompt →
  let res := generateImage keys net Buffer Buffer_from prompt None None s in
  let n := (2 * length keys)%nat in
  res.2 = Thrown MaxRetries
  ∧ posts (trace res.1) = (posts (trace s) + n)%nat
  ∧ rotations (trace res.1) = (rotations (trace s) + n)%nat
  ∧ 1000 * Z.of_nat n ≤ waited (trace res.1) - waited (trace s)
    ≤ 5000 * Z.of_nat n
  ∧ ((∀ k key status message,
        net k key prompt = Rejected status message →
        has_status status 429 = false) →
     waited (trace res.1) - waited (trace s) = 10000 * Z.of_nat (length keys)).
Proof.
  intros Hk Hs Hnet res n.
  destruct (retryable_run prompt None None s Hk Hnet Hs)
    as (Hres & t & Ht & Hp & Hrot & Hw).
  destruct (call_summary prompt None None s) as (t' & Ht' & _ & _ & Hw').
  fold res in Ht, Ht', Hres. rewrite Ht in Ht'.
  apply app_inv_head in Ht'. subst t'.
  assert (Hn : posts t = n).
  { rewrite Hp. unfold budget, attempts_done, js_or, n. lia. }
  rewrite Ht, posts_app_list, rotations_app_list, waited_app, Hrot, Hn in *.
  split; [exact Hres |]. repeat split; try lia.
  intros Hno. specialize (Hw Hno). unfold n in Hw. lia.
Qed.

End EveryCall.

(** *** Every call, at three keys *)

Lemma generateImage_keeps_pool_ok_witness :
  let keys := ["key-a"; "key-b"; "key-c"] in
  pool_ok keys (generateImage keys third_time_client string (λ d, d) "a hat"
                              None None (initial_state keys)).1.
Proof.
  intros keys.
  apply (generateImage_keeps_pool_ok keys third_time_client string (λ d, d)
           "a hat" None None (initial_state keys)).
  apply initial_state_ok. discriminate.
Defined.

Lemma generateImage_thrown_errors_witness :
  MaxRetries ≠ NoApiKey
  ∧ (MaxRetries = MaxRetries ∨ MaxRetries = NoImage
     ∨ ∃ status message, MaxRetries = AxiosError status message
         ∧ status ≠ Some 429 ∧ status ≠ Some 503).
Proof.
  apply (generateImage_thrown_errors ["key-a"; "key-b"; "key-c"] quota_client
           string (λ d, d) "a hat" None None
           (initial_state ["key-a"; "key-b"; "key-c"])).
  - exact keys_ok_sample.
  - apply initial_state_ok. discriminate.
  - vm_compute. reflexivity.
Defined.

Lemma generateImage_returns_last_answer_witness :
  let keys := ["key-a"; "key-b"; "key-c"] in
  let res := generateImage keys third_time_client string (λ d, d) "a hat"
                           None None (initial_state keys) in
  last (trace res.1) = Some (Posted (geminiApiKey res.1) "a hat").
Proof.
  intros keys res.
  destruct (generateImage_returns_last_answer keys third_time_client string
              (λ d, d) "a hat" None None (initial_state keys) "aW1hZ2U=")
    as (d & _ & _ & H & _).
  - vm_compute. reflexivity.
  - exact H.
Defined.

Lemma generateImage_round_robin_witness :
  let keys := ["key-a"; "key-b"; "key-c"] in
  let s' := (generateImage keys quota_client string (λ d, d) "a hat" None None
                           (initial_state keys)).1 in
  let t := drop (length (trace (initial_state keys))) (trace s') in
  posted_keys t
  = (λ n, keys !! Z.to_nat ((0 + Z.of_nat n) mod 3)) <$> seq 0 (posts t).
Proof.
  intros keys s' t.
  destruct (generateImage_round_robin keys quota_client string (λ d, d)
              "a hat" None None (initial_state keys) 0) as (_ & H & _).
  - reflexivity.
  - vm_compute. split; [discriminate | reflexivity].
  - reflexivity.
  - exact H.
Defined.

Lemma unavailable_exhausts_budget_witness :
  let keys := ["key-a"; "key-b"; "key-c"] in
  let res := generateImage keys quota_client string (λ d, d) "a hat" None None
                           (initial_state keys) in
  res.2 = Thrown MaxRetries
  ∧ posts (trace res.1) = (posts (trace (initial_state keys)) + 6)%nat.
Proof.
  intros keys res.
  destruct (unavailable_exhausts_budget keys quota_client string (λ d, d)
              "a hat" (initial_state keys)) as (H1 & H2 & _).
  - exact keys_ok_sample.
  - apply initial_state_ok. discriminate.
  - intros n key. exists (Some 429), "Request failed with status code 429".
    split; [reflexivity | left; reflexivity].
  - split; [exact H1 | exact H2].
Defined.

(** ** Start-up *)


Global Instance key_name_inj : Inj (=) (=) key_name.
Proof.
  intros a b H. unfold key_name, js_show in H.
  apply (inj (String.append "GEMINI_API_KEY_")) in H.
  apply (inj pretty) in H. exact H.
Qed.

Section StartUp.

Variable env : gmap string string.

Lemma load_keys_S fuel k :
  load_keys env (S fuel) k
  = match env !! key_name k with
    | Some v =>
        if truthy (Some v) then v :: load_keys env fuel (k + 1) else []
    | None => []
    end.
Proof. reflexivity. Qed.

Lemma load_keys_lookup fuel :
  ∀ k j v, load_keys env fuel k !! j = Some v →
    env !! key_name (k + Z.of_nat j) = Some v ∧ v ≠ "".
Proof.
  induction fuel as [|fuel IH]; intros k j v H; [discriminate |].
  rewrite load_keys_S in H.
  destruct (env !! key_name k) as [v0|] eqn:E; [| discriminate].
  unfold truthy in H.
  destruct (String.eqb_spec v0 ""); [discriminate |]. cbn [negb] in H.
  destruct j as [|j].
  - injection H as <-. rewrite Z.add_0_r. split; assumption.
  - cbn [lookup list_lookup] in H. apply IH in H.
    replace (k + Z.of_nat (S j)) with (k + 1 + Z.of_nat j) by lia. exact H.
Qed.

Lemma load_keys_stop fuel :
  ∀ k, (length (load_keys env fuel k) < fuel)%nat →
    truthy (env !! key_name (k + Z.of_nat (length (load_keys env fuel k))))
    = false.
Proof.
  induction fuel as [|fuel IH]; intros k H; [cbn [load_keys length] in H; lia |].
  rewrite load_keys_S in *.
  destruct (env !! key_name k) as [v0|] eqn:E.
  - destruct (truthy (Some v0)) eqn:Hv.
    + cbn [length] in *.
      replace (k + Z.of_nat (S (length (load_keys env fuel (k + 1)))))
        with (k + 1 + Z.of_nat (length (load_keys env fuel (k + 1)))) by lia.
      apply IH. lia.
    + cbn [length]. change (Z.of_nat 0) with 0. rewrite Z.add_0_r, E. exact Hv.
  - cbn [length]. change (Z.of_nat 0) with 0. rewrite Z.add_0_r, E. reflexivity.
Qed.

Lemma load_keys_more_fuel fuel :
  ∀ k extra, (length (load_keys env fuel k) < fuel)%nat →
    load_keys env (fuel + extra) k = load_keys env fuel k.
Proof.
  induction fuel as [|fuel IH]; intros k extra H;
    [cbn [load_keys length] in H; lia |].
  change (S fuel + extra)%nat with (S (fuel + extra)).
  rewrite !load_keys_S in *.
  destruct (env !! key_name k) as [v0|]; [| reflexivity].
  destruct (truthy (Some v0)); [| reflexivity].
  cbn [length] in H. f_equal. apply IH. lia.
Qed.

(** The loop reads a different variable in every turn, so it cannot push
    more keys than the environment has variables. *)
Lemma load_keys_length fuel k : (length (load_keys env fuel k) ≤ size env)%nat.
Proof.
  set (l := load_keys env fuel k).
  set (names := (λ j, key_name (k + Z.of_nat j)) <$> seq 0 (length l)).
  assert (Hnodup : NoDup names).
  { unfold names. apply NoDup_fmap_2_strong; [| apply NoDup_seq].
    intros a b _ _ H. apply (inj key_name) in H. lia. }
  assert (Hsub : (list_to_set names : gset string) ⊆ dom env).
  { intros x Hx. apply elem_of_list_to_set in Hx. unfold names in Hx.
    apply list_elem_of_fmap in Hx as (j & -> & Hj).
    apply elem_of_seq in Hj.
    destruct (lookup_lt_is_Some_2 l j) as [v Hv]; [lia |].
    apply load_keys_lookup in Hv as [Hv _].
    apply elem_of_dom. eexists. exact Hv. }
  apply subseteq_size in Hsub.
  rewrite size_list_to_set, size_dom in Hsub by exact Hnodup.
  unfold names in Hsub. rewrite length_fmap, length_seq in Hsub. exact Hsub.
Qed.

End StartUp.

(** X7.  The start-up loop loads the values of [GEMINI_API_KEY_1],
    [GEMINI_API_KEY_2], ... in order, up to the first variable that is unset
    or empty: every loaded key is a non-empty string, a variable after the
    first gap is not loaded, and the loop ends before its fuel does, so more
    fuel loads the same keys. *)
Theorem load_geminiApiKeys_prefix (env : gmap string string) :
  let keys := load_geminiApiKeys env in
  keys_ok keys
  ∧ (∀ j v, keys !! j = Some v → env !! key_name (1 + Z.of_nat j) = Some v)
  ∧ truthy (env !! key_name (1 + Z.of_nat (length keys))) = false
  ∧ (length keys ≤ size env)%nat
  ∧ ∀ extra, load_keys env (S (size env) + extra) 1 = keys.
Proof.
  intros keys.
  pose proof (load_keys_length env (S (size env)) 1) as Hlen.
  fold (load_geminiApiKeys env) in Hlen. fold keys in Hlen.
  split; [| split; [| split; [| split]]].
  - apply Forall_lookup. intros j v Hv.
    apply load_keys_lookup in Hv as [_ Hv]. exact Hv.
  - intros j v Hv. apply load_keys_lookup in Hv as [Hv _]. exact Hv.
  - apply load_keys_stop. fold (load_geminiApiKeys env). fold keys. lia.
  - exact Hlen.
  - intros extra. apply load_keys_more_fuel.
    fold (load_geminiApiKeys env). fold keys. lia.
Qed.

Lemma load_first_key (env : gmap string string) :
  load_geminiApiKeys env !! 0%nat
  = if truthy (env !! key_name 1) then env !! key_name 1 else None.
Proof.
  unfold load_geminiApiKeys. rewrite load_keys_S.
  destruct (env !! key_name 1) as [v|]; [| reflexivity].
  destruct (truthy (Some v)); reflexivity.
Qed.

(** X8.  Whether the server can generate at all is decided by
    [GEMINI_API_KEY_1] alone.  When it is set and not empty, the variables
    start in step with the loaded array, on its first key.  When it is unset
    or empty, no key is loaded whatever the other variables hold, and every
    call of [generateImage] throws "No API key available." without a
    request. *)
Theorem start_up_needs_first_key (env : gmap string string) :
  let keys := load_geminiApiKeys env in
  (truthy (env !! key_name 1) = true →
   pool_ok keys (initial_state keys)
   ∧ geminiApiKey (initial_state keys) = env !! key_name 1)
  ∧ (truthy (env !! key_name 1) = false →
     keys = []
     ∧ ∀ net (Buffer : Type) (Buffer_from : string → Buffer)
         prompt retries maxRetries,
         generateImage keys net Buffer Buffer_from prompt retries maxRetries
                       (initial_state keys)
         = (initial_state keys, Thrown NoApiKey)).
Proof.
  intros keys. pose proof (load_first_key env) as H0. fold keys in H0.
  split; intros Ht; rewrite Ht in H0.
  - assert (keys ≠ []) by (intros E; rewrite E in H0;
      destruct (env !! key_name 1); discriminate).
    split; [apply initial_state_ok; assumption |].
    unfold initial_state. cbn [geminiApiKey js_get Z.ltb Z.compare Z.to_nat].
    exact H0.
  - assert (E : keys = []) by (destruct keys; [reflexivity | discriminate]).
    split; [exact E |]. intros. apply generateImage_no_key.
    rewrite E. reflexivity.
Qed.

Lemma start_up_needs_first_key_witness :
  load_geminiApiKeys gap_env = []
  ∧ generateImage (load_geminiApiKeys gap_env) quota_client string (λ d, d)
      "a hat" None None (initial_state (load_geminiApiKeys gap_env))
    = (initial_state (load_geminiApiKeys gap_env), Thrown NoApiKey).
Proof.
  destruct (start_up_needs_first_key gap_env) as [_ H].
  destruct H as [H1 H2]; [vm_compute; reflexivity |].
  split; [exact H1 | apply H2].
Defined.

(** ** The pages of the gallery *)

Lemma gallery_page_items (docs : list GalleryItem.t) (p : nat) :
  gallery docs (Num (Z.of_nat (S p)))
  = Json (Z.of_nat (length docs))
         (take 10 (drop (10 * p) (merge_sort id_desc docs))).
Proof.
  unfold gallery, find_sort_skip_limit.
  destruct (Z.eqb_spec (Z.of_nat (S p)) 0) as [|_]; [lia |].
  destruct (Z.ltb_spec ((Z.of_nat (S p) - 1) * 10) 0); [lia |].
  replace (Z.to_nat ((Z.of_nat (S p) - 1) * 10)) with (10 * p)%nat by lia.
  reflexivity.
Qed.

Lemma take_chunks {A} (l : list A) (k n : nat) :
  concat ((λ p : nat, take k (drop (k * p) l)) <$> seq 0 n) = take (k * n) l.
Proof.
  induction n as [|n IH]; [rewrite Nat.mul_0_r; reflexivity |].
  rewrite seq_S, fmap_app, concat_app, IH. simpl. rewrite app_nil_r.
  replace (k * S n)%nat with (k * n + k)%nat by lia.
  rewrite <- take_take_drop. reflexivity.
Qed.

Lemma pages_upto_take (docs : list GalleryItem.t) (n : nat) :
  pages_upto docs n = take (10 * n) (merge_sort id_desc docs).
Proof.
  unfold pages_upto. rewrite <- (take_chunks (merge_sort id_desc docs) 10 n).
  f_equal. rewrite <- fmap_S_seq, <- list_fmap_compose.
  apply list_fmap_ext. intros i p _. simpl.
  rewrite gallery_page_items. reflexivity.
Qed.

(** X9.  The pages of the gallery tile the stored items: pages [1 .. n] put
    one after the other are the first [10 n] stored items by descending
    [id]; once [10 n] reaches the number of stored items they list every
    stored item exactly once, and each later page is empty and still reports
    the total. *)
Theorem gallery_pages_tile (docs : list GalleryItem.t) (n : nat) :
  pages_upto docs n = take (10 * n) (merge_sort id_desc docs)
  ∧ ((length docs ≤ 10 * n)%nat →
     pages_upto docs n ≡ₚ docs
     ∧ ∀ p : nat, (n < p)%nat →
         gallery docs (Num (Z.of_nat p)) = Json (Z.of_nat (length docs)) []).
Proof.
  split; [apply pages_upto_take |]. intros Hn.
  assert (Hlen : length (merge_sort id_desc docs) = length docs)
    by (apply Permutation_length, merge_sort_Permutation).
  split.
  - rewrite pages_upto_take, take_ge by lia. apply merge_sort_Permutation.
  - intros p Hp. destruct p as [|p]; [lia |].
    rewrite gallery_page_items, drop_ge by lia. reflexivity.
Qed.

Lemma gallery_pages_tile_witness :
  let first := GalleryItem.Make 1 "ada" "gm" "https://img/1.png" in
  let second := GalleryItem.Make 2 "ada" "wagmi" "https://img/2.png" in
  pages_upto [first; second] 1 ≡ₚ [first; second]
  ∧ gallery [first; second] (Num 2) = Json 2 [].
Proof.
  intros first second.
  destruct (gallery_pages_tile [first; second] 1) as [_ H].
  destruct H as [H1 H2]; [simpl; lia |].
  split; [exact H1 | apply (H2 2%nat); lia].
Defined.



(** ** More about the watermark *)

Section WatermarkMore.

Variable sharp_metadata : list Byte.byte → outcome (Z * Z).
Variable sharp_resize : list Byte.byte → Z → Z → outcome (list Byte.byte).
Variable sharp_composite :
  list Byte.byte → Overlay.t → string → outcome (list Byte.byte).

Lemma applyWatermark_thrown fs imagePath logoPath outputPath fs' e :
  applyWatermark sharp_metadata sharp_resize sharp_composite
    fs imagePath logoPath outputPath = (fs', Thrown e) →
  fs' = fs.
Proof.
  unfold applyWatermark. intros H.
  repeat match type of H with
         | context [match ?x with _ => _ end] => destruct x
         end;
    first [discriminate H | injection H as <- _; reflexivity].
Qed.

(** X11.  [applyWatermark] touches one file.  A call that throws leaves
    every file as it was, also the output; a call that returns gives back
    [outputPath], has written that file, and has left every other path as it
    was: the base image and the logo stay on disk unless the output was
    directed at one of them. *)
Theorem applyWatermark_writes_only_output fs imagePath logoPath outputPath :
  let res := applyWatermark sharp_metadata sharp_resize sharp_composite
               fs imagePath logoPath outputPath in
  (∀ e, res.2 = Thrown e → res.1 = fs)
  ∧ (∀ r, res.2 = Returned r →
       r = outputPath
       ∧ is_Some (res.1 !! outputPath)
       ∧ is_Some (fs !! imagePath) ∧ is_Some (fs !! logoPath))
  ∧ (∀ path, path ≠ outputPath → res.1 !! path = fs !! path).
Proof.
  intros res. destruct res as [fs' [r|e]] eqn:Hres; unfold res in Hres.
  - apply applyWatermark_returned in Hres
      as (image & logo & width & height & logoW & logoH & t & h & resizedLogo
          & out & Himage & _ & Hlogo & _ & _ & _ & _ & _ & _ & _ & -> & ->).
    split; [intros e [=] |]. split.
    + intros r [= <-]. split; [reflexivity |].
      simpl. rewrite lookup_insert_eq, Himage, Hlogo. eauto.
    + intros path Hne. simpl. apply lookup_insert_ne. congruence.
  - apply applyWatermark_thrown in Hres as ->.
    split; [reflexivity |]. split; [intros r [=] | reflexivity].
Qed.


(** X13.  Images too small for a logo make [applyWatermark] throw before it
    writes.  For a readable base 0 or 1 pixel wide the target width rounds
    to 0, and sharp's [resize] refuses it; whenever the computed height is 0
    (a logo much wider than high) it refuses the height.  Both leave the
    files as they were. *)
Theorem applyWatermark_too_small fs imagePath logoPath outputPath
    image logo width height logoW logoH :
  fs !! imagePath = Some image →
  sharp_metadata image = Returned (width, height) →
  fs !! logoPath = Some logo →
  sharp_metadata logo = Returned (logoW, logoH) →
  (0 ≤ width ≤ 1 →
   applyWatermark sharp_metadata sharp_resize sharp_composite
     fs imagePath logoPath outputPath
   = (fs, Thrown (Error
        "Expected positive integer for width but received 0 of type number")))
  ∧ (∀ t, targetLogoWidth width = Num t → 0 < t →
     targetLogoHeight (Num t) logoW logoH = Num 0 →
     applyWatermark sharp_metadata sharp_resize sharp_composite
       fs imagePath logoPath outputPath
     = (fs, Thrown (Error
          "Expected positive integer for height but received 0 of type number"))).
Proof.
  intros Himage Hmeta Hlogo Hlmeta.
  unfold applyWatermark, sharp_open.
  rewrite Himage, Hmeta, Hlogo, Hlmeta. split.
  - intros Hw.
    assert (Ht : targetLogoWidth width = Num 0).
    { assert (width = 0 ∨ width = 1) as [-> | ->] by lia;
        vm_compute; reflexivity. }
    rewrite Ht. reflexivity.
  - intros t Ht Hpos Hh. rewrite Ht. cbn [positive_integer].
    destruct (Z.ltb_spec 0 t); [| lia]. rewrite Hh. reflexivity.
Qed.

End WatermarkMore.

Lemma applyWatermark_writes_only_output_witness :
  (applyWatermark sample_metadata sample_resize sample_composite
     (sample_files []) "generated.png" "watermark_logo.png"
     "watermarked.png").1 !! "notes.txt" = Some [].
Proof.
  destruct (applyWatermark_writes_only_output sample_metadata sample_resize
              sample_composite (sample_files []) "generated.png"
              "watermark_logo.png" "watermarked.png") as (_ & _ & H).
  rewrite (H "notes.txt"); [reflexivity | discriminate].
Defined.


Lemma applyWatermark_too_small_witness :
  applyWatermark flat_logo_metadata sample_resize sample_composite
    (sample_files []) "generated.png" "watermark_logo.png" "watermarked.png"
  = (sample_files [],
     Thrown (Error
       "Expected positive integer for height but received 0 of type number")).
Proof.
  destruct (applyWatermark_too_small flat_logo_metadata sample_resize
              sample_composite (sample_files []) "generated.png"
              "watermark_logo.png" "watermarked.png"
              [Byte.x01] [Byte.x02] 1000 1000 1000 1) as [_ H].
  - reflexivity.
  - reflexivity.
  - reflexivity.
  - reflexivity.
  - apply (H 100); [vm_compute; reflexivity | lia | vm_compute; reflexivity].
Defined.

(** ** The route that generates *)

Lemma sorted_head_greatest (docs : list GalleryItem.t) :
  match findOne_sort_id_desc docs with
  | Some item => item ∈ docs ∧ ∀ old, old ∈ docs → id_desc item old
  | None => docs = []
  end.
Proof.
  unfold findOne_sort_id_desc.
  pose proof (merge_sort_Permutation id_desc docs) as Hperm.
  pose proof (StronglySorted_merge_sort id_desc docs) as Hsorted.
  destruct (merge_sort id_desc docs) as [|item rest]; cbn [head].
  - symmetry. apply Permutation_nil_l. exact Hperm.
  - split.
    + rewrite <- Hperm. left.
    + intros old Hold. rewrite <- Hperm in Hold.
      apply StronglySorted_inv in Hsorted as [_ Hall].
      apply elem_of_cons in Hold as [-> | Hold]; [unfold id_desc; lia |].
      rewrite Forall_forall in Hall. apply Hall, Hold.
Qed.

Lemma sorted_newest_first (docs : list GalleryItem.t) (item : GalleryItem.t) :
  (∀ old, old ∈ docs → GalleryItem.id old < GalleryItem.id item) →
  ∃ rest, merge_sort id_desc (docs ++ [item])%list = item :: rest
          ∧ rest ≡ₚ docs.
Proof.
  intros Hnew.
  pose proof (merge_sort_Permutation id_desc (docs ++ [item])%list) as Hperm.
  pose proof (StronglySorted_merge_sort id_desc (docs ++ [item])%list) as Hsorted.
  destruct (merge_sort id_desc (docs ++ [item])%list) as [|x rest].
  - apply Permutation_nil_l in Hperm. destruct docs; discriminate.
  - apply StronglySorted_inv in Hsorted as [_ Hall].
    rewrite Forall_forall in Hall.
    assert (Hx : x ∈ (docs ++ [item])%list) by (rewrite <- Hperm; left).
    assert (Hitem : item ∈ x :: rest)
      by (rewrite Hperm; apply elem_of_app; right; left).
    assert (x = item) as ->.
    { apply elem_of_app in Hx as [Hx | Hx].
      - apply Hnew in Hx.
        apply elem_of_cons in Hitem as [-> | Hitem]; [reflexivity |].
        apply Hall in Hitem. unfold id_desc in Hitem. lia.
      - apply list_elem_of_singleton in Hx. exact Hx. }
    exists rest. split; [reflexivity |].
    rewrite <- Permutation_cons_append in Hperm.
    apply Permutation_cons_inv in Hperm. exact Hperm.
Qed.

Lemma path_join_inj dir : Inj (=) (=) (path_join dir).
Proof.
  intros a b H. unfold path_join in H.
  apply (inj (String.append dir)) in H.
  apply (inj (String.append "/")) in H. exact H.
Qed.

Lemma generateImage_returned_posts keys net (Buffer : Type)
    (Buffer_from : string → Buffer) prompt r m s b :
  (generateImage keys net Buffer Buffer_from prompt r m s).2 = Returned b →
  (posts (trace s)
   < posts (trace (generateImage keys net Buffer Buffer_from prompt r m s).1))%nat.
Proof.
  intros Hb.
  destruct (call_returns keys net Buffer Buffer_from prompt r m s b Hb)
    as (d & t & _ & _ & Ht & _).
  rewrite Ht, !posts_app_list.
  assert (posts [Posted
    (geminiApiKey (generateImage keys net Buffer Buffer_from prompt r m s).1)
    prompt] = 1%nat) as -> by reflexivity.
  lia.
Qed.

Section RouteFacts.

Variable geminiApiKeys : list string.
Variable axios_post : nat → option string → string → axios_result.
Variable base64 : string → list Byte.byte.
Variable sharp_metadata : list Byte.byte → outcome (Z * Z).
Variable sharp_resize : list Byte.byte → Z → Z → outcome (list Byte.byte).
Variable sharp_composite :
  list Byte.byte → Overlay.t → string → outcome (list Byte.byte).
Variable dirname uuid : string.
Variable cloudinary_upload : list Byte.byte → string → outcome string.
Variable writeFile_error findOne_error create_error : option error.

Local Abbreviation route :=
  (generate_image geminiApiKeys axios_post base64 sharp_metadata sharp_resize
                  sharp_composite dirname uuid cloudinary_upload
                  writeFile_error findOne_error create_error).
Local Abbreviation gen :=
  (generateImage geminiApiKeys axios_post (list Byte.byte) base64).

Local Abbreviation filePath :=
  (path_join dirname ("generated_image_" +:+ uuid +:+ ".png")).
Local Abbreviation watermarkedFilePath :=
  (path_join dirname ("watermarked_" +:+ "generated_image_" +:+ uuid +:+ ".png")).
Local Abbreviation logoPath := (path_join dirname "watermark_logo.png").

Lemma temp_paths_differ :
  filePath ≠ watermarkedFilePath ∧ filePath ≠ logoPath
  ∧ watermarkedFilePath ≠ logoPath.
Proof.
  repeat split; intros H; apply path_join_inj in H; discriminate H.
Qed.

(** Removing the two temporary files from a directory that did not hold
    them before the request. *)
Lemma unlink_both (d : files) image :
  d !! filePath = None → d !! watermarkedFilePath = None →
  unlink_all [filePath; watermarkedFilePath] (<[filePath := image]> d) = d
  ∧ (∀ out,
       unlink_all [filePath; watermarkedFilePath]
         (<[watermarkedFilePath := out]> (<[filePath := image]> d)) = d)
  ∧ unlink_all [filePath; watermarkedFilePath] d = d
  ∧ unlink_all [filePath] d = d.
Proof.
  intros Hf Hw. destruct temp_paths_differ as (Hne & _ & _).
  split; [| split; [| split]].
  - cbn [unlink_all]. rewrite lookup_insert_eq, delete_insert_id by exact Hf.
    rewrite Hw. reflexivity.
  - intros out. cbn [unlink_all].
    rewrite lookup_insert_ne, lookup_insert_eq by congruence.
    rewrite delete_insert_ne, delete_insert_id by (congruence || exact Hf).
    rewrite lookup_insert_eq, delete_insert_id by exact Hw. reflexivity.
  - cbn [unlink_all]. rewrite Hf. reflexivity.
  - cbn [unlink_all]. rewrite Hf. reflexivity.
Qed.

(** X14.  A request leaves no file behind.  When the server's directory
    holds neither of the two temporary files of a request before it, it
    holds the same files after it as before, however the request ends: with
    the image stored, with "Logo file not found.", or with a failure of the
    generation, of the write, of sharp, of the upload or of the database. *)
Theorem generate_image_leaves_no_files username inscription prompt (w : world) :
  let fileName := "generated_image_" +:+ uuid +:+ ".png" in
  disk w !! path_join dirname fileName = None →
  disk w !! path_join dirname ("watermarked_" +:+ fileName) = None →
  disk (generate_image geminiApiKeys axios_post base64 sharp_metadata
          sharp_resize sharp_composite dirname uuid cloudinary_upload
          writeFile_error findOne_error create_error
          username inscription prompt w).1
  = disk w.
Proof.
  intros fileName Hf Hw. unfold fileName in *. clear fileName.
  unfold generate_image.
  destruct (gen prompt None None (pool w)) as [s [imageBuffer|e]];
    [| reflexivity].
  destruct (unlink_both (disk w) imageBuffer Hf Hw) as (U1 & U2 & U3 & U4).
  destruct writeFile_error; [unfold failed; cbn [fst disk]; exact U4 |].
  cbv zeta.
  destruct (<[filePath := imageBuffer]> (disk w) !! logoPath);
    [| cbn [fst disk]; apply delete_insert_id, Hf].
  destruct (applyWatermark _ _ _ _ _ _ _) as [disk2 [out|e]] eqn:Ewm.
  - apply applyWatermark_returned in Ewm
      as (_ & _ & _ & _ & _ & _ & _ & _ & _ & out' & _ & _ & _ & _ & _ & _
          & _ & _ & _ & _ & -> & ->).
    rewrite lookup_insert_eq, U2.
    destruct (cloudinary_upload _ _); [| unfold failed; reflexivity].
    destruct findOne_error; [unfold failed; cbn [fst disk]; exact U3 |].
    destruct create_error; [unfold failed; cbn [fst disk]; exact U3 |].
    reflexivity.
  - apply applyWatermark_thrown in Ewm as ->.
    unfold failed. cbn [fst disk]. exact U1.
Qed.

(** A request that succeeded appended the item it answers with, whose [id]
    is above every stored one. *)
Lemma route_generated username inscription prompt (w : world) url message item :
  (route username inscription prompt w).2 = Generated url message item →
  galleryItems (route username inscription prompt w).1
  = (galleryItems w ++ [item])%list
  ∧ ∀ old, old ∈ galleryItems w → GalleryItem.id old < GalleryItem.id item.
Proof.
  unfold generate_image.
  destruct (gen prompt None None (pool w)) as [s [imageBuffer|e]];
    [| discriminate].
  destruct writeFile_error; [discriminate |].
  cbv zeta.
  destruct (<[filePath := imageBuffer]> (disk w) !! logoPath);
    [| discriminate].
  destruct (applyWatermark _ _ _ _ _ _ _) as [disk2 [out|e]];
    [| discriminate].
  destruct (match disk2 !! out with Some _ => _ | None => _ end)
    as [secure_url|e]; [| discriminate].
  destruct findOne_error; [discriminate |].
  destruct create_error; [discriminate |].
  cbn [fst snd galleryItems]. intros [= <- <- <-].
  split; [reflexivity |]. intros old Hold. cbn [GalleryItem.id].
  pose proof (sorted_head_greatest (galleryItems w)) as Hhead.
  destruct (findOne_sort_id_desc (galleryItems w)) as [item|].
  - destruct Hhead as [_ Hall]. apply Hall in Hold.
    unfold id_desc in Hold. lia.
  - rewrite Hhead in Hold. apply elem_of_nil in Hold. contradiction.
Qed.


(** X16.  What the route stores, the gallery shows first.  After a request
    that succeeded, the first page (also the page of a missing, unparsable
    or zero page number) starts with the new item, followed by items stored
    before, the total is one more than before, and the next request finds
    the new item as the last one, so the next [id] is one more. *)
Theorem generated_item_heads_gallery username inscription prompt (w : world)
    url message item :
  let res := generate_image geminiApiKeys axios_post base64 sharp_metadata
               sharp_resize sharp_composite dirname uuid cloudinary_upload
               writeFile_error findOne_error create_error
               username inscription prompt w in
  res.2 = Generated url message item →
  (∃ rest,
     gallery (galleryItems res.1) (Num 1)
     = Json (Z.of_nat (length (galleryItems w)) + 1) (item :: rest)
     ∧ rest ⊆ galleryItems w ∧ (length rest ≤ 9)%nat)
  ∧ gallery (galleryItems res.1) NaN = gallery (galleryItems res.1) (Num 1)
  ∧ findOne_sort_id_desc (galleryItems res.1) = Some item.
Proof.
  intros res Hres.
  destruct (route_generated username inscription prompt w url message item
              Hres) as [Hitems Hnew].
  fold res in Hitems.
  destruct (sorted_newest_first (galleryItems w) item Hnew)
    as (rest & Hsort & Hperm).
  split; [| split; [reflexivity |]].
  - exists (take 9 rest). split; [| split].
    + unfold gallery, find_sort_skip_limit. rewrite Hitems, Hsort.
      rewrite length_app. cbn [length]. f_equal. lia.
    + etransitivity; [apply subseteq_take |].
      intros x Hx. rewrite <- Hperm. exact Hx.
    + rewrite length_take. lia.
  - unfold findOne_sort_id_desc. rewrite Hitems, Hsort. reflexivity.
Qed.

(** X17.  A missing logo is found out only after the image has been
    generated.  When the server's directory has no [watermark_logo.png], no
    request succeeds and none stores an item; whenever [generateImage]
    returns and the image is written, the request ends with "Logo file not
    found.", after at least one request to the image endpoint. *)
Theorem generate_image_missing_logo username inscription prompt (w : world) :
  let res := generate_image geminiApiKeys axios_post base64 sharp_metadata
               sharp_resize sharp_composite dirname uuid cloudinary_upload
               writeFile_error findOne_error create_error
               username inscription prompt w in
  let call := generateImage geminiApiKeys axios_post (list Byte.byte) base64
                prompt None None (pool w) in
  disk w !! path_join dirname "watermark_logo.png" = None →
  (∀ url message item, res.2 ≠ Generated url message item)
  ∧ galleryItems res.1 = galleryItems w
  ∧ (res.2 = Failed500 "Logo file not found."
     ↔ (∃ imageBuffer, call.2 = Returned imageBuffer)
       ∧ writeFile_error = None)
  ∧ (res.2 = Failed500 "Logo file not found." →
     (posts (trace (pool w)) < posts (trace (pool res.1)))%nat).
Proof.
  intros res call Hlogo.
  assert (Hposts : ∀ b, call.2 = Returned b →
            (posts (trace (pool w)) < posts (trace call.1))%nat)
    by (intros b; apply generateImage_returned_posts).
  revert Hposts. unfold res, call, generate_image.
  destruct (gen prompt None None (pool w)) as [s [imageBuffer|e]].
  - intros Hposts. specialize (Hposts imageBuffer eq_refl).
    destruct writeFile_error as [e|].
    + unfold failed. cbn [fst snd galleryItems].
      repeat split; try discriminate.
      intros [_ [=]].
    + cbv zeta. destruct temp_paths_differ as (_ & Hne & _).
      rewrite lookup_insert_ne, Hlogo by exact Hne.
      cbn [fst snd galleryItems pool].
      repeat split; try discriminate; eauto.
  - intros _. unfold failed. cbn [fst snd galleryItems].
    repeat split; try discriminate.
    intros [[b [=]] _].
Qed.

End RouteFacts.

(** *** The route at a sample server *)

Lemma generate_image_leaves_no_files_witness :
  disk (sample_route "ada" "gm" (sample_world [])).1 = server_files.
Proof.
  unfold sample_route.
  apply (generate_image_leaves_no_files ["key-a"; "key-b"] ready_client
           sample_base64 sample_metadata sample_resize sample_composite
           "/app" "u1" sample_upload None None None "ada" "gm" "a hat"
           (sample_world [])); vm_compute; reflexivity.
Defined.

Lemma generated_item_heads_gallery_witness :
  findOne_sort_id_desc (galleryItems (sample_route "ada" "gm" (sample_world [])).1)
  = Some (GalleryItem.Make 1 "ada" "gm"
            "https://res.cloudinary.com/zule-pfps/watermarked_generated_image_u1.png").
Proof.
  unfold sample_route.
  destruct (generated_item_heads_gallery ["key-a"; "key-b"] ready_client
              sample_base64 sample_metadata sample_resize sample_composite
              "/app" "u1" sample_upload None None None "ada" "gm" "a hat"
              (sample_world [])
              "https://res.cloudinary.com/zule-pfps/watermarked_generated_image_u1.png"
              "Image generated, watermarked, and saved."
              (GalleryItem.Make 1 "ada" "gm"
                 "https://res.cloudinary.com/zule-pfps/watermarked_generated_image_u1.png"))
    as (_ & _ & H).
  - vm_compute. reflexivity.
  - exact H.
Defined.

Lemma generate_image_missing_logo_witness :
  let w := World (initial_state ["key-a"; "key-b"]) ∅ [] in
  (generate_image ["key-a"; "key-b"] ready_client sample_base64
     sample_metadata sample_resize sample_composite "/app" "u1" sample_upload
     None None None "ada" "gm" "a hat" w).2
  = Failed500 "Logo file not found.".
Proof.
  intros w.
  destruct (generate_image_missing_logo ["key-a"; "key-b"] ready_client
              sample_base64 sample_metadata sample_resize sample_composite
              "/app" "u1" sample_upload None None None "ada" "gm" "a hat" w)
    as (_ & _ & H & _).
  - reflexivity.
  - apply H. split; [| reflexivity].
    exists [Byte.x01]. vm_compute. reflexivity.
Defined.
